(** * PyBlinkoBot: the media-group collector of [main.py]

    A shallow embedding of [upload_file], [create_note],
    [process_media_group], [handle_file] and [handle_text], of the settings
    guard, the filters and the handlers of [main], and of the part of the
    dispatcher, of the job queue and of the local file system they rely on.

    Conventions of the model.
    - Time is counted in milliseconds: the delays [1.5] and [0.1] seconds of
      the source are [1500] and [100].
    - Python code that may raise is written in the monad [Py], a state monad
      over [World] whose results are [Returned v] or [Raised e].
    - The answers of the outside world (Telegram file download, the Blinko
      backend) are given by an [Env]: one [Fetch] per attachment attempt and
      one [NoteReply] per note request, indexed by the counters [attempts]
      and [notes] of the world.
    - Sending and editing the status reply ([reply_text], [edit_text]) is
      taken to succeed; the calls are recorded in the [trace].
    - The libraries behave as they document: [raise_for_status] raises for
      the status codes 400 to 599, the exceptions of [requests] are
      [RequestException]s, and [run_once] names a job after its callback
      when no name is given.
    - A handler runs atomically: no message is handled while a job runs, and
      the queue runs the jobs that are due in the order of their due time,
      one after the other. Two finalizations that overlap in time are
      outside the model.
    - An update is dispatched as the library does: the first handler whose
      filter takes it is called, and an exception that leaves the handler
      goes to [error_handler]. *)

From stdpp Require Import gmap strings list fin_maps pretty.
From Stdlib Require Import ZArith Lia Ascii.

#[local] Set Warnings "-register-all".

Local Open Scope Z_scope.

(** ** Telegram messages *)

(** [telegram.Document], [telegram.Video], [telegram.Audio]: what the code
    reads is [file_id] and the optional [file_name]. *)
Record FileRef := {
  file_id : string;
  file_name : option string
}.

Record PhotoSize := {
  photo_file_id : string
}.

Record Message := {
  message_id : Z;
  media_group_id : option string;
  caption : option string;
  document : option FileRef;
  photo : list PhotoSize;
  video : option FileRef;
  audio : option FileRef
}.

Global Instance FileRef_eq_dec : EqDecision FileRef.
Proof. solve_decision. Defined.
Global Instance PhotoSize_eq_dec : EqDecision PhotoSize.
Proof. solve_decision. Defined.
Global Instance Message_eq_dec : EqDecision Message.
Proof. solve_decision. Defined.

(** ** JSON values, as [response.json()] returns them *)

Inductive json :=
| JNull
| JBool (b : bool)
| JNum (n : Z)
| JStr (s : string)
| JArr (l : list json)
| JObj (d : gmap string json).

(** Python truthiness, [if upload_result:]. *)
Definition truthy (v : json) : bool :=
  match v with
  | JNull => false
  | JBool b => b
  | JNum n => negb (n =? 0)
  | JStr s => negb (String.eqb s "")
  | JArr l => match l with [] => false | _ => true end
  | JObj d => negb (bool_decide (d = ∅))
  end.

(** Truthiness of an optional string, [if msg.caption:]. *)
Definition str_truthy (s : option string) : bool :=
  match s with
  | Some (String _ _) => true
  | _ => false
  end.

(** [f"{x}"] for a value that may be [None]. *)
Definition py_str (s : option string) : string := default "None" s.

(** The entry appended to [attachment_objects]; each field is the result of
    a [dict.get], so it is [None] when the key is missing. *)
Record Descriptor := {
  d_name : option json;
  d_path : option json;
  d_size : option json;
  d_type : option json
}.

(** ** Exceptions and logging *)

Inductive Exn :=
| RequestException   (* requests.exceptions.RequestException and subclasses *)
| OSError
| TypeError
| AttributeError
| KeyError
| TelegramError.

Definition is_request_exception (e : Exn) : bool :=
  match e with RequestException => true | _ => false end.

Inductive LogRecord :=
| InfoUploadDone (name : option json)
| ErrorUploadMissingInfo (response_data : json)
| ErrorUploadFailed (e : Exn)
| InfoNoteCreated
| ErrorNoteFailed (e : Exn)
| ErrorGroupUploadFailed (name : option string)
| ErrorGroupFileException (name : option string) (e : Exn)
| WarningUpdateError (e : Exn).

(** The message sent by [reply_text]: identified by the message it answers
    and by the position of the call in the trace. *)
Record SentMessage := {
  in_reply_to : Message;
  sent_at : nat
}.

Inductive Effect :=
| ReplyText (to : Message) (text : string)
| EditText (reply : SentMessage) (text : string)
| GetFile (fid : string)
| Download (custom_path : string)
| PostUpload (file_path : string) (name : option string)
| PostNote (content : string) (attachments : list Descriptor)
| Log (r : LogRecord).

(** ** Group table and job queue *)

Record GroupRecord := {
  messages : list Message;
  original_message : Message
}.

(** [job.context] *)
Record JobContext := {
  ctx_media_group_id : string;
  ctx_original_message : Message
}.

(** A job of the queue; its callback is always [process_media_group]. *)
Record Job := {
  job_name : string;
  job_due : Z;
  job_context : JobContext
}.

Record World := {
  media_groups : option (gmap string GroupRecord);
  job_queue : list Job;
  clock : Z;
  files : gset string;
  trace : list Effect;
  attempts : nat;
  notes : nat
}.

Definition set_media_groups (t : option (gmap string GroupRecord)) (w : World) : World :=
  {| media_groups := t; job_queue := job_queue w; clock := clock w;
     files := files w; trace := trace w; attempts := attempts w; notes := notes w |}.

Definition set_job_queue (q : list Job) (w : World) : World :=
  {| media_groups := media_groups w; job_queue := q; clock := clock w;
     files := files w; trace := trace w; attempts := attempts w; notes := notes w |}.

Definition set_clock (t : Z) (w : World) : World :=
  {| media_groups := media_groups w; job_queue := job_queue w; clock := t;
     files := files w; trace := trace w; attempts := attempts w; notes := notes w |}.

Definition set_files (fs : gset string) (w : World) : World :=
  {| media_groups := media_groups w; job_queue := job_queue w; clock := clock w;
     files := fs; trace := trace w; attempts := attempts w; notes := notes w |}.

Definition emit (e : Effect) (w : World) : World :=
  {| media_groups := media_groups w; job_queue := job_queue w; clock := clock w;
     files := files w; trace := trace w ++ [e]; attempts := attempts w; notes := notes w |}.

Definition next_attempt (w : World) : World :=
  {| media_groups := media_groups w; job_queue := job_queue w; clock := clock w;
     files := files w; trace := trace w; attempts := S (attempts w); notes := notes w |}.

Definition next_note (w : World) : World :=
  {| media_groups := media_groups w; job_queue := job_queue w; clock := clock w;
     files := files w; trace := trace w; attempts := attempts w; notes := S (notes w) |}.

(** ** The outside world *)

(** Answer of the backend to [POST /api/file/upload]. *)
Inductive UploadReply :=
| UploadNoResponse                                   (* connection error, timeout *)
| UploadResponse (status_code : Z) (body : option json).  (* [None]: the body is not JSON *)

(** What happens to one attachment. *)
Inductive Fetch :=
| GetFileRaises                      (* [context.bot.get_file] raises *)
| DownloadRaises (written : bool)    (* [tg_file.download] raises, after creating the file or not *)
| Fetched (r : UploadReply).         (* the file is on disk; the backend answers [r] *)

(** Answer of the backend to [POST /api/v1/note/upsert]. *)
Inductive NoteReply :=
| NoteNoResponse
| NoteResponse (status_code : Z).

Record Env := {
  fetch : nat → Fetch;
  note_reply : nat → NoteReply
}.

(** ** The monad of Python computations *)

Inductive PyResult (A : Type) :=
| Returned (a : A)
| Raised (e : Exn).
Arguments Returned {A} a.
Arguments Raised {A} e.

Definition Py (A : Type) : Type := World → PyResult A * World.

Global Instance Py_ret : MRet Py := λ A a w, (Returned a, w).

Global Instance Py_bind : MBind Py := λ A B k m w,
  match m w with
  | (Returned a, w') => k a w'
  | (Raised e, w') => (Raised e, w')
  end.

Definition raise {A} (e : Exn) : Py A := λ w, (Raised e, w).

(** [try: body except E as e: handler e], where [catches] tells which
    exceptions the clause matches. *)
Definition try_except {A} (catches : Exn → bool) (body : Py A) (handler : Exn → Py A) : Py A :=
  λ w, match body w with
       | (Raised e, w') => if catches e then handler e w' else (Raised e, w')
       | r => r
       end.

(** [try: body finally: fin]: [fin] runs on every exit of [body]. *)
Definition try_finally {A} (body : Py A) (fin : Py unit) : Py A :=
  λ w, match body w with
       | (r, w') =>
           match fin w' with
           | (Returned _, w'') => (r, w'')
           | (Raised e, w'') => (Raised e, w'')
           end
       end.

Definition modify (f : World → World) : Py unit := λ w, (Returned tt, f w).

Definition log (r : LogRecord) : Py unit := modify (emit (Log r)).

(** ** Primitives: file system, Telegram, HTTP *)

(** [open(file_path, 'rb')] *)
Definition open_rb (file_path : string) : Py unit :=
  λ w, if decide (file_path ∈ files w) then (Returned (), w) else (Raised OSError, w).

Definition os_path_exists (p : string) : Py bool :=
  λ w, (Returned (bool_decide (p ∈ files w)), w).

Definition os_remove (p : string) : Py unit :=
  λ w, if decide (p ∈ files w)
       then (Returned (), set_files (files w ∖ {[p]}) w)
       else (Raised OSError, w).

(** [if os.path.exists(p): os.remove(p)] *)
Definition remove_if_exists (p : string) : Py unit :=
  file_exists ← os_path_exists p;
  if file_exists : bool then os_remove p else mret ().

(** [response.raise_for_status()] raises [HTTPError] for a status code from
    400 to 599 and for no other. *)
Definition raise_for_status (status_code : Z) : Py unit :=
  if bool_decide (400 ≤ status_code < 600) then raise RequestException else mret ().

(** [response.json()]; a body that is not JSON raises
    [requests.exceptions.JSONDecodeError], a [RequestException]. *)
Definition response_json (body : option json) : Py json :=
  match body with
  | Some v => mret v
  | None => raise RequestException
  end.

(** [p in t] for strings: [p] occurs in [t]. *)
Fixpoint is_substring (p t : string) : bool :=
  String.prefix p t ||
  match t with
  | EmptyString => false
  | String _ t' => is_substring p t'
  end.

Definition is_JStr (k : string) (v : json) : bool :=
  match v with JStr s => String.eqb s k | _ => false end.

(** [key in response_data], by the type of [response_data]. *)
Definition py_in (key : string) (v : json) : Py bool :=
  match v with
  | JObj d => mret (bool_decide (is_Some (d !! key)))
  | JArr l => mret (existsb (is_JStr key) l)
  | JStr s => mret (is_substring key s)
  | JNull | JBool _ | JNum _ => raise TypeError
  end.

(** [response_data.get(key)]: only a dict has [get]. *)
Definition py_get (v : json) (key : string) : Py (option json) :=
  match v with
  | JObj d => mret (d !! key)
  | _ => raise AttributeError
  end.

(** [requests.post(api_endpoint, headers=headers, files=files)] *)
Definition post_upload (r : UploadReply) (file_path : string) (name : option string)
  : Py (Z * option json) :=
  modify (emit (PostUpload file_path name));;
  match r with
  | UploadNoResponse => raise RequestException
  | UploadResponse status_code body => mret (status_code, body)
  end.

(** ** [upload_file] *)

(** Lines 38 to 51: the [with] block and its [except] clause. *)
Definition upload_request (r : UploadReply) (file_path : string) (name : option string)
  : Py (option json) :=
  try_except is_request_exception
    (open_rb file_path;;
     response ← post_upload r file_path name;
     raise_for_status response.1;;
     response_data ← response_json response.2;
     has_path ← py_in "filePath" response_data;
     has_name ← (if has_path : bool then py_in "fileName" response_data else mret false);
     if has_path && has_name then
       logged_name ← py_get response_data "fileName";
       log (InfoUploadDone logged_name);;
       mret (Some response_data)
     else
       log (ErrorUploadMissingInfo response_data);;
       mret None)
    (λ e, log (ErrorUploadFailed e);; mret None).

Definition upload_file (r : UploadReply) (file_path : string) (name : option string)
  : Py (option json) :=
  try_finally (upload_request r file_path name) (remove_if_exists file_path).

(** ** [create_note] *)

(** [requests.post(api_endpoint, headers=headers, json=payload)] followed by
    [response.raise_for_status()]; the reply is the one the environment
    gives to this note request. *)
Definition post_note (env : Env) (content : string) (attachments : list Descriptor) : Py Z :=
  λ w, let w' := next_note (emit (PostNote content attachments) w) in
       match note_reply env (notes w) with
       | NoteNoResponse => (Raised RequestException, w')
       | NoteResponse status_code => (Returned status_code, w')
       end.

Definition create_note (env : Env) (content : string) (attachments : list Descriptor) : Py bool :=
  try_except is_request_exception
    (status_code ← post_note env content attachments;
     raise_for_status status_code;;
     log InfoNoteCreated;;
     mret true)
    (λ e, log (ErrorNoteFailed e);; mret false).

(** ** [process_media_group] *)

(** [context.bot_data.get('media_groups', {}).pop(media_group_id, None)] *)
Definition pop_media_group (gid : string) : Py (option GroupRecord) :=
  λ w, match media_groups w with
       | None => (Returned None, w)
       | Some table => (Returned (table !! gid), set_media_groups (Some (delete gid table)) w)
       end.

(** [original_message.reply_text(text)] *)
Definition reply_text (to : Message) (text : string) : Py SentMessage :=
  λ w, (Returned {| in_reply_to := to; sent_at := length (trace w) |},
        emit (ReplyText to text) w).

(** [reply_message.edit_text(text)] *)
Definition edit_text (reply : SentMessage) (text : string) : Py unit :=
  modify (emit (EditText reply text)).

(** Lines 84 to 88: the first truthy caption, or the empty string. *)
Fixpoint first_caption (msgs : list Message) : string :=
  match msgs with
  | [] => ""
  | msg :: rest =>
      if str_truthy (caption msg) then default "" (caption msg) else first_caption rest
  end.

Definition placeholder_single : string := "来自 Telegram 的文件".
Definition placeholder_group : string := "来自 Telegram 的媒体组".

(** Lines 84 to 90. *)
Definition determine_caption (msgs : list Message) : string :=
  let caption := first_caption msgs in
  if str_truthy (Some caption) then caption
  else if bool_decide (length msgs = 1%nat) then placeholder_single else placeholder_group.

(** Lines 95 to 105: the file object and file name of a message, by kind. *)
Definition select_file (msg : Message) : option (string * option string) :=
  match document msg with
  | Some doc => Some (file_id doc, file_name doc)
  | None =>
      match last (photo msg) with
      | Some largest =>
          Some (photo_file_id largest, Some (photo_file_id largest +:+ ".jpg"))
      | None =>
          match video msg with
          | Some v => Some (file_id v, file_name v)
          | None =>
              match audio msg with
              | Some a => Some (file_id a, file_name a)
              | None => None
              end
          end
      end
  end.

Definition temp_path_of (name : option string) : string := "./" +:+ py_str name.

(** [context.bot.get_file(file_obj.file_id)] *)
Definition bot_get_file (env : Env) (fid : string) : Py unit :=
  λ w, match fetch env (attempts w) with
       | GetFileRaises => (Raised TelegramError, emit (GetFile fid) w)
       | _ => (Returned (), emit (GetFile fid) w)
       end.

(** [tg_file.download(temp_path)] *)
Definition tg_download (env : Env) (temp_path : string) : Py unit :=
  λ w, let w' := emit (Download temp_path) w in
       match fetch env (attempts w) with
       | Fetched _ => (Returned (), set_files ({[temp_path]} ∪ files w') w')
       | DownloadRaises true => (Raised TelegramError, set_files ({[temp_path]} ∪ files w') w')
       | _ => (Raised TelegramError, w')
       end.

(** The answer the backend gives to the upload of the current attempt. *)
Definition upload_reply (env : Env) (k : nat) : UploadReply :=
  match fetch env k with
  | Fetched r => r
  | _ => UploadNoResponse
  end.

Definition descriptor_of (upload_result : json) : Py Descriptor :=
  name ← py_get upload_result "fileName";
  path ← py_get upload_result "filePath";
  size ← py_get upload_result "size";
  type ← py_get upload_result "type";
  mret {| d_name := name; d_path := path; d_size := size; d_type := type |}.

(** The text of line 107. *)
Definition progress_text (i total : nat) : string :=
  "正在上传第 " +:+ pretty (S i) +:+ "/" +:+ pretty total +:+ " 个文件...".

(** Lines 107 to 127: the body of the loop for a message that carries a file. *)
Definition upload_attachment (env : Env) (reply_message : SentMessage) (total i : nat)
    (fid : string) (name : option string) (attachment_objects : list Descriptor)
  : Py (list Descriptor) :=
  edit_text reply_message (progress_text i total);;
  let temp_path := temp_path_of name in
  result ← try_except (λ _, true)
    (bot_get_file env fid;;
     tg_download env temp_path;;
     k ← (λ w, (Returned (attempts w), w));
     upload_result ← upload_file (upload_reply env k) temp_path name;
     match upload_result with
     | Some v =>
         if truthy v then
           d ← descriptor_of v;
           mret (attachment_objects ++ [d])
         else
           log (ErrorGroupUploadFailed name);; mret attachment_objects
     | None =>
         log (ErrorGroupUploadFailed name);; mret attachment_objects
     end)
    (λ e,
     log (ErrorGroupFileException name e);;
     remove_if_exists temp_path;;
     mret attachment_objects);
  modify next_attempt;;
  mret result.

(** Lines 93 to 127: [for i, msg in enumerate(messages)]. *)
Fixpoint upload_loop (env : Env) (reply_message : SentMessage) (total i : nat)
    (msgs : list Message) (attachment_objects : list Descriptor) : Py (list Descriptor) :=
  match msgs with
  | [] => mret attachment_objects
  | msg :: rest =>
      match select_file msg with
      | None => upload_loop env reply_message total (S i) rest attachment_objects
      | Some (fid, name) =>
          attachment_objects' ←
            upload_attachment env reply_message total i fid name attachment_objects;
          upload_loop env reply_message total (S i) rest attachment_objects'
      end
  end.

(** The text of line 82. *)
Definition header_text (msgs : list Message) : string :=
  "正在处理包含 " +:+ pretty (length msgs) +:+ " 个文件的消息...".

(** Lines 81 to 139, for the popped [messages]. *)
Definition finalize_messages (env : Env) (original_message : Message) (messages : list Message)
  : Py unit :=
  reply_message ← reply_text original_message (header_text messages);
  let caption := determine_caption messages in
  attachment_objects ← upload_loop env reply_message (length messages) 0 messages [];
  match attachment_objects with
  | [] => edit_text reply_message "保存失败：所有文件都上传失败。"
  | _ :: _ =>
      edit_text reply_message "所有文件上传成功，正在创建最终笔记...";;
      success ← create_note env caption attachment_objects;
      if success : bool then edit_text reply_message "已保存"
      else edit_text reply_message "保存失败：笔记创建失败。"
  end.

Definition process_media_group (env : Env) (context : JobContext) : Py unit :=
  let media_group_id := ctx_media_group_id context in
  let original_message := ctx_original_message context in
  media_group_data ← pop_media_group media_group_id;
  match media_group_data with
  | None => mret ()
  | Some data =>
      match messages data with
      | [] => mret ()
      | _ :: _ => finalize_messages env original_message (messages data)
      end
  end.

(** ** The job queue *)

Global Instance JobContext_eq_dec : EqDecision JobContext.
Proof. solve_decision. Defined.
Global Instance Job_eq_dec : EqDecision Job.
Proof. solve_decision. Defined.

Definition MEDIA_GROUP_COLLECTION_DELAY : Z := 1500.

(** The literal [0.1] of line 184. *)
Definition SINGLE_FILE_DELAY : Z := 100.

(** [process_media_group.__name__], the name [run_once] gives to a job
    scheduled without one. *)
Definition callback_name : string := "process_media_group".

(** The queue is kept in the order in which the jobs are due; a job is put
    behind the jobs that are due at the same time. *)
Fixpoint enqueue (job : Job) (q : list Job) : list Job :=
  match q with
  | [] => [job]
  | j :: q' => if bool_decide (job_due job < job_due j) then job :: q else j :: enqueue job q'
  end.

(** [context.job_queue.get_jobs_by_name(name)] *)
Definition get_jobs_by_name (name : string) : Py (list Job) :=
  λ w, (Returned (filter (λ j, job_name j = name) (job_queue w)), w).

(** [job.schedule_removal()] *)
Definition schedule_removal (job : Job) : Py unit :=
  modify (λ w, set_job_queue (filter (λ j, j ≠ job) (job_queue w)) w).

(** [for job in jobs: job.schedule_removal()] *)
Fixpoint remove_all (jobs : list Job) : Py unit :=
  match jobs with
  | [] => mret ()
  | job :: rest => schedule_removal job;; remove_all rest
  end.

(** [context.job_queue.run_once(process_media_group, when, context=..., name=...)] *)
Definition run_once (when : Z) (context : JobContext) (name : option string) : Py unit :=
  modify (λ w,
    let job := {| job_name := if str_truthy name then default "" name else callback_name;
                  job_due := clock w + when;
                  job_context := context |} in
    set_job_queue (enqueue job (job_queue w)) w).

(** ** [handle_file] *)

Definition virtual_group_id (mid : Z) : string := "single_" +:+ pretty mid.

Definition new_record (msg : Message) : GroupRecord :=
  {| messages := [msg]; original_message := msg |}.

Definition append_message (msg : Message) (data : GroupRecord) : GroupRecord :=
  {| messages := messages data ++ [msg]; original_message := original_message data |}.

(** Lines 154 to 162. *)
Definition accumulate (gid : string) (msg : Message) : Py unit :=
  modify (λ w,
    let table := default ∅ (media_groups w) in
    match table !! gid with
    | None => set_media_groups (Some (<[gid := new_record msg]> table)) w
    | Some data => set_media_groups (Some (<[gid := append_message msg data]> table)) w
    end).

(** [context.bot_data['media_groups'][media_group_id]['original_message']] *)
Definition stored_original (gid : string) : Py Message :=
  λ w, match media_groups w ≫= (.!! gid) with
       | Some data => (Returned (original_message data), w)
       | None => (Raised KeyError, w)
       end.

(** Line 179: [setdefault('media_groups', {})[virtual_group_id] = {...}]. *)
Definition register_single (gid : string) (msg : Message) : Py unit :=
  modify (λ w,
    set_media_groups (Some (<[gid := new_record msg]> (default ∅ (media_groups w)))) w).

Definition handle_file (msg : Message) : Py unit :=
  if str_truthy (media_group_id msg) then
    let media_group_id := default "" (media_group_id msg) in
    accumulate media_group_id msg;;
    original ← stored_original media_group_id;
    let job_context := {| ctx_media_group_id := media_group_id;
                          ctx_original_message := original |} in
    let job_name := media_group_id in
    existing_jobs ← get_jobs_by_name job_name;
    remove_all existing_jobs;;
    run_once MEDIA_GROUP_COLLECTION_DELAY job_context (Some job_name)
  else
    let virtual_group_id := virtual_group_id (message_id msg) in
    register_single virtual_group_id msg;;
    let job_context := {| ctx_media_group_id := virtual_group_id;
                          ctx_original_message := msg |} in
    run_once SINGLE_FILE_DELAY job_context None.

(** ** The event loop *)

(** The queue runs a job: the job leaves the queue and its callback is called;
    what the callback returns or raises is dropped. *)
Definition run_job (env : Env) (job : Job) (rest : list Job) (w : World) : World :=
  (process_media_group env (job_context job)
     (set_job_queue rest (set_clock (job_due job `max` clock w) w))).2.

(** Runs, in the order of the queue, the jobs that are due at time [t], each
    to its end before the next starts. The job queue of the library hands
    the jobs to a pool of threads, where two of them may overlap: the event
    loop below describes the runs in which they do not, and nothing is
    stated through it on two jobs that run at the same time. *)
Fixpoint fire_due (env : Env) (t : Z) (q : list Job) (w : World) : World :=
  match q with
  | [] => w
  | job :: rest =>
      if bool_decide (job_due job ≤ t) then fire_due env t rest (run_job env job rest w)
      else w
  end.

(** Time passes until [t]. *)
Definition advance (env : Env) (t : Z) (w : World) : World :=
  let w' := fire_due env t (job_queue w) w in
  set_clock (t `max` clock w') w'.

(** A file message arrives at time [ev.1]. *)
Definition deliver (env : Env) (w : World) (ev : Z * Message) : World :=
  (handle_file ev.2 (advance env ev.1 w)).2.

Definition run (env : Env) (events : list (Z * Message)) (w : World) : World :=
  foldl (deliver env) w events.

Definition initial : World :=
  {| media_groups := None; job_queue := []; clock := 0; files := ∅;
     trace := []; attempts := 0; notes := 0 |}.

(** ** Observations *)

(** The note requests of a trace: content and attachments, in order. *)
Definition note_writes (tr : list Effect) : list (string * list Descriptor) :=
  omap (λ e, match e with PostNote c a => Some (c, a) | _ => None end) tr.

(** What the user sees: replies sent and edits made. *)
Definition user_visible (tr : list Effect) : list Effect :=
  omap (λ e, match e with ReplyText _ _ | EditText _ _ => Some e | _ => None end) tr.

Definition get_files (tr : list Effect) : list string :=
  omap (λ e, match e with GetFile fid => Some fid | _ => None end) tr.

Definition downloads (tr : list Effect) : list string :=
  omap (λ e, match e with Download p => Some p | _ => None end) tr.

Definition uploads (tr : list Effect) : list (string * option string) :=
  omap (λ e, match e with PostUpload p name => Some (p, name) | _ => None end) tr.

(** The errors logged by [process_media_group] itself, lines 123 and 125,
    with the file name they name. *)
Definition failure_logs (tr : list Effect) : list (option string) :=
  omap (λ e, match e with
             | Log (ErrorGroupUploadFailed name) => Some name
             | Log (ErrorGroupFileException name _) => Some name
             | _ => None
             end) tr.

(** The messages of a group that carry a file, as the loop sees them. *)
Definition file_messages (msgs : list Message) : list (string * option string) :=
  omap select_file msgs.

(** The upload replies that [upload_file] turns into a result the caller
    keeps: no HTTP error, a JSON object, both keys present. *)
Definition accepts (r : UploadReply) : bool :=
  match r with
  | UploadResponse status_code (Some (JObj d)) =>
      negb (bool_decide (400 ≤ status_code < 600))
      && bool_decide (is_Some (d !! "filePath"))
      && bool_decide (is_Some (d !! "fileName"))
  | _ => false
  end.

(** The attempts that end with a descriptor. *)
Definition fetch_ok (f : Fetch) : bool :=
  match f with
  | Fetched r => accepts r
  | _ => false
  end.

(** Among the [n] attempts from number [k] on, those that succeed. *)
Fixpoint successes (env : Env) (k n : nat) : nat :=
  match n with
  | O => O
  | S n' => ((if fetch_ok (fetch env k) then 1 else 0) + successes env (S k) n')%nat
  end.

Definition failures (env : Env) (k n : nat) : nat := (n - successes env k n)%nat.

(** The answers to a note request the code takes as a success. *)
Definition note_ok (r : NoteReply) : bool :=
  match r with
  | NoteResponse status_code => negb (bool_decide (400 ≤ status_code < 600))
  | NoteNoResponse => false
  end.

(** [w'] differs from [w] by the effects [tail] added to the trace, the
    files [gone] removed, [da] more attempts and [dn] more note requests. *)
Record Step (w w' : World) (tail : list Effect) (gone : gset string) (da dn : nat) : Prop := {
  step_groups : media_groups w' = media_groups w;
  step_queue : job_queue w' = job_queue w;
  step_clock : clock w' = clock w;
  step_files : files w' = files w ∖ gone;
  step_trace : trace w' = trace w ++ tail;
  step_attempts : attempts w' = (attempts w + da)%nat;
  step_notes : notes w' = (notes w + dn)%nat
}.

(** The local paths the loop writes for a group. *)
Definition temp_paths (msgs : list Message) : list string :=
  (λ f, temp_path_of f.2) <$> file_messages msgs.

(** What lines 129 to 139 add to the trace, for the attachments collected
    and the answer to the [k]-th note request. *)
Definition closing (env : Env) (k : nat) (reply : SentMessage) (content : string)
    (atts : list Descriptor) : list Effect :=
  match atts with
  | [] => [EditText reply "保存失败：所有文件都上传失败。"]
  | _ :: _ =>
      [EditText reply "所有文件上传成功，正在创建最终笔记..."; PostNote content atts]
      ++ (if note_ok (note_reply env k)
          then [Log InfoNoteCreated; EditText reply "已保存"]
          else [Log (ErrorNoteFailed RequestException);
                EditText reply "保存失败：笔记创建失败。"])
  end.

(** The downloads the loop makes for the files [fs], from attempt [k] on:
    one for each file that [get_file] hands out. *)
Fixpoint expected_downloads (env : Env) (k : nat) (fs : list (string * option string))
  : list string :=
  match fs with
  | [] => []
  | f :: fs' =>
      match fetch env k with
      | GetFileRaises => []
      | _ => [temp_path_of f.2]
      end ++ expected_downloads env (S k) fs'
  end.

(** The uploads the loop makes for the files [fs], from attempt [k] on: one
    for each file whose download succeeded. *)
Fixpoint expected_uploads (env : Env) (k : nat) (fs : list (string * option string))
  : list (string * option string) :=
  match fs with
  | [] => []
  | f :: fs' =>
      match fetch env k with
      | Fetched _ => [(temp_path_of f.2, f.2)]
      | _ => []
      end ++ expected_uploads env (S k) fs'
  end.

(** The facts on the effects of a loop over messages whose files are [fs],
    started at attempt [k], with [collected] attachments added. *)
Record LoopFacts (env : Env) (reply : SentMessage) (k : nat)
    (fs : list (string * option string)) (tail : list Effect) (collected : nat) : Prop := {
  loop_visible : Forall (λ e, ∃ text, e = EditText reply text) (user_visible tail);
  loop_get_files : get_files tail = fs.*1;
  loop_downloads : downloads tail `sublist_of` ((λ f, temp_path_of f.2) <$> fs);
  loop_uploads : uploads tail `sublist_of` ((λ f, (temp_path_of f.2, f.2)) <$> fs);
  loop_no_note : note_writes tail = [];
  loop_collected : collected = successes env k (length fs);
  loop_failures : (length (failure_logs tail) + collected = length fs)%nat;
  loop_downloads_exact : downloads tail = expected_downloads env k fs;
  loop_uploads_exact : uploads tail = expected_uploads env k fs
}.

(** [w'] shows no effect of the outside world with respect to [w]: same
    files, same trace, same counters. *)
Record Silent (w w' : World) : Prop := {
  silent_files : files w' = files w;
  silent_trace : trace w' = trace w;
  silent_attempts : attempts w' = attempts w;
  silent_notes : notes w' = notes w
}.

(** The job [handle_file] schedules for the group [gid] at time [now]. *)
Definition group_job (gid : string) (original : Message) (now : Z) : Job :=
  {| job_name := gid;
     job_due := now + MEDIA_GROUP_COLLECTION_DELAY;
     job_context := {| ctx_media_group_id := gid; ctx_original_message := original |} |}.

(** The job [handle_file] schedules for a message without group. *)
Definition single_job (msg : Message) (now : Z) : Job :=
  {| job_name := callback_name;
     job_due := now + SINGLE_FILE_DELAY;
     job_context := {| ctx_media_group_id := virtual_group_id (message_id msg);
                       ctx_original_message := msg |} |}.

(** The live jobs that will finalize the group [gid]. *)
Definition timers_for (gid : string) (q : list Job) : list Job :=
  filter (λ j, ctx_media_group_id (job_context j) = gid) q.

(** Each event comes less than the quiet window after the one before;
    [t0] is the time of the event before the first. *)
Fixpoint burst (t0 : Z) (events : list (Z * Message)) : Prop :=
  match events with
  | [] => True
  | ev :: rest => t0 ≤ ev.1 < t0 + MEDIA_GROUP_COLLECTION_DELAY ∧ burst ev.1 rest
  end.

(** The time of the last event, [t0] when there is none. *)
Definition last_time (t0 : Z) (events : list (Z * Message)) : Z :=
  default t0 (last events.*1).

(** The messages [first :: rest.*2] of the group [gid] arrive in a burst
    that starts at [t1], in a world [w0] where no job is pending and the
    group is unknown. *)
Record GroupBurst (gid : string) (w0 : World) (t1 : Z) (first : Message)
    (rest : list (Z * Message)) : Prop := {
  gb_first : media_group_id first = Some gid;
  gb_rest : Forall (λ ev, media_group_id ev.2 = Some gid) rest;
  gb_real : gid ≠ "";
  gb_idle : job_queue w0 = [];
  gb_fresh : media_groups w0 ≫= (.!! gid) = None;
  gb_start : clock w0 ≤ t1;
  gb_times : burst t1 rest
}.

(** The world [w] in which the group [gid] has collected [msgs] since [w0],
    the last of them at time [t]: one record, one timer, nothing shown. *)
Record Accumulated (gid : string) (w0 : World) (msgs : list Message) (orig : Message)
    (t : Z) (w : World) : Prop := {
  acc_groups :
    media_groups w =
    Some (<[gid := {| messages := msgs; original_message := orig |}]>
            (default ∅ (media_groups w0)));
  acc_queue : job_queue w = [group_job gid orig t];
  acc_clock : clock w = t;
  acc_silent : Silent w0 w
}.

(** The world [w2] in which the messages [msgs] collected since [w0] have
    been finalized, with [atts] the attachments collected and [tail] the
    effects of the upload loop. *)
Record Finalized (env : Env) (gid : string) (w0 : World) (orig : Message)
    (msgs : list Message) (w2 : World) (atts : list Descriptor) (tail : list Effect) : Prop := {
  fin_trace :
    trace w2 =
    trace w0 ++ [ReplyText orig (header_text msgs)] ++ tail
    ++ closing env (notes w0) {| in_reply_to := orig; sent_at := length (trace w0) |}
         (determine_caption msgs) atts;
  fin_facts :
    LoopFacts env {| in_reply_to := orig; sent_at := length (trace w0) |}
      (attempts w0) (file_messages msgs) tail (length atts);
  fin_removed : media_groups w2 ≫= (.!! gid) = None;
  fin_queue : job_queue w2 = [];
  fin_files : files w2 = files w0 ∖ list_to_set (temp_paths msgs)
}.

(** The live jobs that [handle_file] scheduled for messages carrying the
    group id [gid]: named after the group and bound to it. *)
Definition group_timers (gid : string) (q : list Job) : list Job :=
  filter (λ j, job_name j = gid ∧ ctx_media_group_id (job_context j) = gid) q.

(** The names the queue gives agree with the contexts: a job is named after
    its group, or it is the unnamed job of a message without group. *)
Definition names_agree (q : list Job) : Prop :=
  ∀ j, j ∈ q →
    job_name j = ctx_media_group_id (job_context j) ∨
    (job_name j = callback_name ∧
     String.prefix "single_" (ctx_media_group_id (job_context j)) = true).

(** The two facts on the queue that every step of the loop keeps. *)
Definition queue_ok (q : list Job) : Prop :=
  names_agree q ∧ ∀ gid, (length (group_timers gid q) ≤ 1)%nat.


(** ** The statements of the specification *)

(** The caller of [upload_file] keeps its result: [if upload_result:]. *)
Definition treated_as_success (r : UploadReply) (file_path : string) (name : option string)
    (w : World) : Prop :=
  ∃ v, (upload_file r file_path name w).1 = Returned (Some v) ∧ truthy v = true.

(** The success response as the specification words it: a 2xx status and
    a JSON object with the four fields. *)
Definition claimed_success (r : UploadReply) : Prop :=
  ∃ status_code d,
    r = UploadResponse status_code (Some (JObj d)) ∧
    200 ≤ status_code < 300 ∧
    is_Some (d !! "fileName") ∧ is_Some (d !! "filePath") ∧
    is_Some (d !! "size") ∧ is_Some (d !! "type").

(** A message has no caption the code would use. *)
Definition no_caption (msg : Message) : Prop := str_truthy (caption msg) = false.

(** ** Sample data *)

Definition photo_message (mid : Z) (gid : option string) (text : option string)
    (fid : string) : Message :=
  {| message_id := mid; media_group_id := gid; caption := text; document := None;
     photo := [{| photo_file_id := fid |}]; video := None; audio := None |}.

Definition stored (name path : string) : gmap string json :=
  <["fileName" := JStr name]> (<["filePath" := JStr path]> ∅).

Definition stored_full (name path : string) : gmap string json :=
  <["size" := JNum 1024]> (<["type" := JStr "image/jpeg"]> (stored name path)).

(** Every upload and every note request succeeds. *)
Definition env_up : Env :=
  {| fetch := λ _, Fetched (UploadResponse 200 (Some (JObj (stored_full "a.jpg" "/api/file/a.jpg"))));
     note_reply := λ _, NoteResponse 200 |}.

(** Telegram does not hand out any file. *)
Definition env_down : Env :=
  {| fetch := λ _, GetFileRaises; note_reply := λ _, NoteResponse 200 |}.

(** The first attempt fails, the others succeed; the note backend answers 500. *)
Definition env_flaky : Env :=
  {| fetch := λ k, match k with
                   | O => Fetched (UploadResponse 503 None)
                   | S _ => Fetched (UploadResponse 200 (Some (JObj (stored_full "a.jpg" "/api/file/a.jpg"))))
                   end;
     note_reply := λ _, NoteResponse 500 |}.

(** The first attempt fails, the others succeed, and so does the note. *)
Definition env_partial : Env :=
  {| fetch := fetch env_flaky; note_reply := λ _, NoteResponse 200 |}.

(** The group of the example of section 8: three photos, the second with
    the caption "puppy", waiting in the table to be finalized. *)
Definition puppy_messages : list Message :=
  [photo_message 1 (Some "G1") (Some "") "p1";
   photo_message 2 (Some "G1") (Some "puppy") "p2";
   photo_message 3 (Some "G1") None "p3"].

Definition puppy_record : GroupRecord :=
  {| messages := puppy_messages; original_message := photo_message 1 (Some "G1") (Some "") "p1" |}.

Definition puppy_world : World :=
  set_media_groups (Some {["G1" := puppy_record]}) initial.

Definition puppy_context : JobContext :=
  {| ctx_media_group_id := "G1";
     ctx_original_message := photo_message 1 (Some "G1") (Some "") "p1" |}.

(** A group of two photos without caption, waiting to be finalized. *)
Definition pair_messages : list Message :=
  [photo_message 11 (Some "G2") None "q1"; photo_message 12 (Some "G2") None "q2"].

Definition pair_record : GroupRecord :=
  {| messages := pair_messages; original_message := photo_message 11 (Some "G2") None "q1" |}.

Definition pair_world : World :=
  set_media_groups (Some {["G2" := pair_record]}) initial.

Definition pair_context : JobContext :=
  {| ctx_media_group_id := "G2";
     ctx_original_message := photo_message 11 (Some "G2") None "q1" |}.

(** The three messages of [puppy_messages] arrive 200 ms apart. *)
Definition puppy_first : Message := photo_message 1 (Some "G1") (Some "") "p1".

Definition puppy_rest : list (Z * Message) :=
  [(200, photo_message 2 (Some "G1") (Some "puppy") "p2");
   (400, photo_message 3 (Some "G1") None "p3")].

(** Two photos sent without group. *)
Definition single_a : Message := photo_message 21 None (Some "a") "s1".
Definition single_b : Message := photo_message 22 None None "s2".

(** A photo of a group whose id reads like a synthetic one, and a photo
    without group whose message id is 7. *)
Definition odd_grouped : Message := photo_message 6 (Some "single_7") None "g6".
Definition odd_single : Message := photo_message 7 None None "s7".

(** The note request of a finalization that collected [atts]. *)
Definition note_of (msgs : list Message) (atts : list Descriptor)
  : list (string * list Descriptor) :=
  match atts with
  | [] => []
  | _ :: _ => [(determine_caption msgs, atts)]
  end.

(** The messages answered by [reply_text] in a trace. *)
Definition replied_to (tr : list Effect) : list Message :=
  omap (λ e, match e with ReplyText to _ => Some to | _ => None end) tr.

(** ** Requests to the backend *)

(** [s.rstrip(c)] for a single character [c]: [s] without the [c]s at its
    end. *)
Fixpoint rstrip (c : Ascii.ascii) (s : string) : string :=
  match s with
  | EmptyString => EmptyString
  | String a s' =>
      match rstrip c s' with
      | EmptyString => if Ascii.eqb a c then EmptyString else String a EmptyString
      | String b r => String a (String b r)
      end
  end.

(** Line 35. *)
Definition upload_endpoint (api_url : string) : string :=
  rstrip "/"%char api_url +:+ "/api/file/upload".

(** Line 58. *)
Definition note_endpoint (api_url : string) : string :=
  rstrip "/"%char api_url +:+ "/api/v1/note/upsert".

(** [attachments if attachments else []] of line 60. *)
Definition payload_attachments (attachments : option (list Descriptor)) : list Descriptor :=
  match attachments with
  | Some (d :: l) => d :: l
  | _ => []
  end.

(** A string of [n] times the character [c]. *)
Fixpoint replicate_char (n : nat) (c : Ascii.ascii) : string :=
  match n with
  | O => EmptyString
  | S n' => String c (replicate_char n' c)
  end.

(** What [upload_file] gives for each answer of the backend, the file being
    there: the table of lines 40 to 51. *)
Definition upload_outcome (r : UploadReply) : PyResult (option json) :=
  match r with
  | UploadNoResponse => Returned None
  | UploadResponse status_code body =>
      if bool_decide (400 ≤ status_code < 600) then Returned None
      else
        match body with
        | None => Returned None
        | Some (JObj d) =>
            if bool_decide (is_Some (d !! "filePath")) && bool_decide (is_Some (d !! "fileName"))
            then Returned (Some (JObj d)) else Returned None
        | Some (JArr l) =>
            if existsb (is_JStr "filePath") l && existsb (is_JStr "fileName") l
            then Raised AttributeError else Returned None
        | Some (JStr s) =>
            if is_substring "filePath" s && is_substring "fileName" s
            then Raised AttributeError else Returned None
        | Some _ => Raised TypeError
        end
  end.

(** The descriptor built from an object of the backend, lines 116 to 121. *)
Definition descriptor_from (d : gmap string json) : Descriptor :=
  {| d_name := d !! "fileName"; d_path := d !! "filePath";
     d_size := d !! "size"; d_type := d !! "type" |}.

(** The indices, counted from [i], of the messages that carry a file. *)
Fixpoint file_positions (i : nat) (msgs : list Message) : list nat :=
  match msgs with
  | [] => []
  | msg :: rest =>
      match select_file msg with
      | Some _ => i :: file_positions (S i) rest
      | None => file_positions (S i) rest
      end
  end.

(** The progress edits of the loop, lines 93 to 107: one for each message
    that carries a file, numbered by its position in the record. *)
Definition progress_edits (reply : SentMessage) (total i : nat) (msgs : list Message)
  : list Effect :=
  (λ j, EditText reply (progress_text j total)) <$> file_positions i msgs.

(** The descriptor an attempt adds to [attachment_objects], if any. *)
Definition fetched_descriptor (f : Fetch) : option Descriptor :=
  match f with
  | Fetched r =>
      if accepts r then
        match r with
        | UploadResponse _ (Some (JObj d)) => Some (descriptor_from d)
        | _ => None
        end
      else None
  | _ => None
  end.

(** The descriptors collected by the [n] attempts from number [k] on. *)
Fixpoint collected (env : Env) (k n : nat) : list Descriptor :=
  match n with
  | O => []
  | S n' => option_list (fetched_descriptor (fetch env k)) ++ collected env (S k) n'
  end.

(** ** [handle_text] *)

(** [update.message] is [msg] and [update.message.text] is [text]; [create_note]
    is called without attachments. *)
Definition handle_text (env : Env) (msg : Message) (text : string) : Py unit :=
  reply_message ← reply_text msg "收到，正在保存...";
  success ← create_note env text (payload_attachments None);
  if success : bool then edit_text reply_message "已保存"
  else edit_text reply_message "保存失败".

(** ** [main]: settings, filters and handlers *)

(** The four settings read at lines 16 to 19; [AUTHORIZED_CHAT_ID] has gone
    through [int]. *)
Record Config := {
  TELEGRAM_BOT_TOKEN : option string;
  AUTHORIZED_CHAT_ID : Z;
  BLINKO_API_URL : option string;
  BLINKO_API_KEY : option string
}.

(** Which field of an update holds its message. A [MessageHandler] built
    without further arguments takes the four kinds. *)
Inductive UpdateKind := NewMessage | EditedMessage | ChannelPost | EditedChannelPost.

(** An update: its kind, its message ([update.effective_message]), the id
    of the sender of that message, its text, and what [Filters.command]
    gives on it. *)
Record Update := {
  kind : UpdateKind;
  effective_message : Message;
  from_user : option Z;
  text : option string;
  is_command : bool
}.

(** [update.message]: the message of a new message, [None] for an edited
    message and for a channel post. *)
Definition update_message (u : Update) : option Message :=
  match kind u with
  | NewMessage => Some (effective_message u)
  | _ => None
  end.

(** [Filters.user(user_id=uid)] *)
Definition filter_user (uid : Z) (u : Update) : bool :=
  bool_decide (from_user u = Some uid).

(** [Filters.document | Filters.photo | Filters.video | Filters.audio] *)
Definition all_media_filters (u : Update) : bool :=
  let msg := effective_message u in
  bool_decide (is_Some (document msg))
  || match photo msg with [] => false | _ :: _ => true end
  || bool_decide (is_Some (video msg))
  || bool_decide (is_Some (audio msg)).

(** [Filters.text] *)
Definition filter_text (u : Update) : bool := str_truthy (text u).

Inductive Callback := HandleFile | HandleText.

(** A [MessageHandler]: its filter and its callback. *)
Record Handler := {
  handler_filter : Update → bool;
  handler_callback : Callback
}.

(** Lines 201 to 208: the two handlers, in the order of their registration. *)
Definition handlers_of (cfg : Config) : list Handler :=
  let authorized_filter := filter_user (AUTHORIZED_CHAT_ID cfg) in
  [ {| handler_filter := λ u, authorized_filter u && all_media_filters u && negb (is_command u);
       handler_callback := HandleFile |};
    {| handler_filter := λ u, authorized_filter u && filter_text u && negb (is_command u);
       handler_callback := HandleText |} ].

(** [handle_file] and [handle_text] as they are called with an update: both
    begin by reading an attribute of [update.message], an [AttributeError]
    when it is [None]. *)
Definition handle_file_update (u : Update) : Py unit :=
  match update_message u with
  | Some msg => handle_file msg
  | None => raise AttributeError
  end.

Definition handle_text_update (env : Env) (u : Update) : Py unit :=
  match update_message u with
  | Some msg => handle_text env msg (default "" (text u))
  | None => raise AttributeError
  end.

(** Lines 187 and 188. *)
Definition error_handler (e : Exn) : Py unit := log (WarningUpdateError e).

(** The dispatcher: the first handler whose filter takes the update runs,
    the others do not; an exception that leaves the handler goes to
    [error_handler]. *)
Definition dispatch (env : Env) (handlers : list Handler) (u : Update) : Py unit :=
  match find (λ h, handler_filter h u) handlers with
  | Some h =>
      try_except (λ _, true)
        match handler_callback h with
        | HandleFile => handle_file_update u
        | HandleText => handle_text_update env u
        end
        error_handler
  | None => mret ()
  end.

(** An update arrives at time [ev.1]. *)
Definition deliver_update (env : Env) (handlers : list Handler) (w : World)
    (ev : Z * Update) : World :=
  (dispatch env handlers ev.2 (advance env ev.1 w)).2.

Definition run_updates (env : Env) (handlers : list Handler) (events : list (Z * Update))
    (w : World) : World :=
  foldl (deliver_update env handlers) w events.

(** The records of the table. *)
Definition table_of (w : World) : gmap string GroupRecord := default ∅ (media_groups w).

(** No message of the events belongs to a group whose id is the name that
    [run_once] gives to a job scheduled without one. *)
Definition no_group_named_callback (events : list (Z * Update)) : Prop :=
  Forall (λ ev, media_group_id (effective_message ev.2) ≠ Some callback_name) events.

(** The key under which [handle_file] stores a message. *)
Definition group_key (msg : Message) : string :=
  if str_truthy (media_group_id msg) then default "" (media_group_id msg)
  else virtual_group_id (message_id msg).

(** The record [handle_file] leaves under the key of a message. *)
Definition stored_record (msg : Message) (w : World) : GroupRecord :=
  if str_truthy (media_group_id msg) then
    match table_of w !! group_key msg with
    | Some old => append_message msg old
    | None => new_record msg
    end
  else new_record msg.

(** The job [handle_file] schedules for a message. *)
Definition scheduled_job (msg : Message) (w : World) : Job :=
  if str_truthy (media_group_id msg)
  then group_job (group_key msg) (original_message (stored_record msg w)) (clock w)
  else single_job msg (clock w).

(** The jobs [handle_file] leaves in the queue before it schedules its own. *)
Definition kept_jobs (msg : Message) (q : list Job) : list Job :=
  if str_truthy (media_group_id msg) then filter (λ j, job_name j ≠ group_key msg) q else q.

(** Every record of the table holds at least one message, starts with its
    original message, and holds only messages that carry a file. *)
Definition records_ok (w : World) : Prop :=
  ∀ gid data, table_of w !! gid = Some data →
    head (messages data) = Some (original_message data) ∧
    Forall (λ msg, is_Some (select_file msg)) (messages data).

(** Every record of the table has a job in the queue that will finalize it. *)
Definition every_record_has_timer (w : World) : Prop :=
  ∀ gid, is_Some (table_of w !! gid) →
    ∃ job, job ∈ job_queue w ∧ ctx_media_group_id (job_context job) = gid.

(** The note requests made so far plus the records waiting in the table. *)
Definition notes_and_records (w : World) : nat :=
  (length (note_writes (trace w)) + size (table_of w))%nat.

(** The queue and the table fit: the names of the jobs agree with their
    contexts, every record has its timer, and no job is due later than a
    quiet window from now. *)
Definition timers_ok (w : World) : Prop :=
  names_agree (job_queue w) ∧
  every_record_has_timer w ∧
  Forall (λ job, job_due job ≤ clock w + MEDIA_GROUP_COLLECTION_DELAY) (job_queue w).

(** File messages of the authorized user, as [main]'s first handler takes them. *)
Definition file_update (uid : Z) (msg : Message) : Update :=
  {| kind := NewMessage; effective_message := msg; from_user := Some uid; text := None;
     is_command := false |}.

Definition text_update (uid : Z) (mid : Z) (t : string) : Update :=
  {| kind := NewMessage;
     effective_message :=
       {| message_id := mid; media_group_id := None; caption := None; document := None;
          photo := []; video := None; audio := None |};
     from_user := Some uid; text := Some t; is_command := false |}.

Definition sample_config : Config :=
  {| TELEGRAM_BOT_TOKEN := Some "token"; AUTHORIZED_CHAT_ID := 42;
     BLINKO_API_URL := Some "https://blinko.example/"; BLINKO_API_KEY := Some "key" |}.

(** The user corrects the caption of a photo already sent. *)
Definition edited_update (uid : Z) (msg : Message) : Update :=
  {| kind := EditedMessage; effective_message := msg; from_user := Some uid; text := None;
     is_command := false |}.

(** A text, the three photos of "G1", an edit of the first of them and a
    photo without group. *)
Definition sample_updates : list (Z * Update) :=
  [(0, text_update 42 30 "buy milk");
   (1000, file_update 42 puppy_first);
   (1100, edited_update 42 (photo_message 1 (Some "G1") (Some "kitten") "p1"));
   (1200, file_update 42 (photo_message 2 (Some "G1") (Some "puppy") "p2"));
   (1300, file_update 42 single_a);
   (1400, file_update 42 (photo_message 3 (Some "G1") None "p3"))].

(** * Properties *)

(** ** Observations and steps *)

Lemma note_writes_app tr1 tr2 : note_writes (tr1 ++ tr2) =
  note_writes tr1 ++ note_writes tr2.
Proof. apply omap_app. Qed.
Lemma user_visible_app tr1 tr2 : user_visible (tr1 ++ tr2) =
  user_visible tr1 ++ user_visible tr2.
Proof. apply omap_app. Qed.
Lemma get_files_app tr1 tr2 : get_files (tr1 ++ tr2) =
  get_files tr1 ++ get_files tr2.
Proof. apply omap_app. Qed.
Lemma downloads_app tr1 tr2 : downloads (tr1 ++ tr2) =
  downloads tr1 ++ downloads tr2.
Proof. apply omap_app. Qed.
Lemma uploads_app tr1 tr2 : uploads (tr1 ++ tr2) =
  uploads tr1 ++ uploads tr2.
Proof. apply omap_app. Qed.
Lemma failure_logs_app tr1 tr2 : failure_logs (tr1 ++ tr2) =
  failure_logs tr1 ++ failure_logs tr2.
Proof. apply omap_app. Qed.

Lemma Step_refl w : Step w w [] ∅ 0 0.
Proof.
  split; try done.
  - by rewrite difference_empty_L.
  - by rewrite app_nil_r.
Qed.

Lemma Step_trans w w1 w2 t1 t2 g1 g2 a1 a2 n1 n2 :
  Step w w1 t1 g1 a1 n1 → Step w1 w2 t2 g2 a2 n2 →
  Step w w2 (t1 ++ t2) (g1 ∪ g2) (a1 + a2) (n1 + n2).
Proof.
  intros [] []. split; try congruence.
  - rewrite <- difference_difference_l_L. congruence.
  - rewrite app_assoc. congruence.
  - lia.
  - lia.
Qed.

Lemma Step_emit e w : Step w (emit e w) [e] ∅ 0 0.
Proof. split; simpl; try done; try lia. by rewrite difference_empty_L. Qed.

Ltac py_unfold :=
  unfold try_finally, try_except, post_upload, raise_for_status, response_json,
    py_in, py_get, open_rb, os_path_exists, os_remove, log, modify, raise,
    mbind, Py_bind, mret, Py_ret.

(** Closes the goals [Step w w' ?tail _ _ _] whose worlds are explicit. *)
Ltac step_explicit :=
  split; simpl;
  [ reflexivity | reflexivity | reflexivity
  | by rewrite ?difference_empty_L
  | rewrite <- ?app_assoc; reflexivity
  | lia | lia ].

(** Closes the equations on the observations of an explicit tail. *)
Ltac obs_done := repeat (split; [reflexivity|]); try reflexivity.

(** ** The file system *)

Lemma remove_if_exists_step p w :
  ∃ w', remove_if_exists p w = (Returned (), w') ∧ Step w w' [] {[p]} 0 0.
Proof.
  unfold remove_if_exists; py_unfold.
  destruct (decide (p ∈ files w)) as [Hin|Hout].
  - rewrite bool_decide_true by done. rewrite decide_True by done.
    eexists. split; [done|]. split; simpl; try done; [by rewrite app_nil_r | lia..].
  - rewrite bool_decide_false by done.
    exists w. split; [done|]. split; try done; try lia.
    + symmetry. apply difference_disjoint_L. by apply disjoint_singleton_r.
    + by rewrite app_nil_r.
Qed.

(** ** [upload_file] *)

Lemma upload_request_step r p name w :
  p ∈ files w →
  ∃ res tail w',
    upload_request r p name w = (res, w') ∧
    Step w w' tail ∅ 0 0 ∧
    uploads tail = [(p, name)] ∧
    note_writes tail = [] ∧ user_visible tail = [] ∧ get_files tail = [] ∧
    downloads tail = [] ∧ failure_logs tail = [] ∧
    match res with
    | Returned (Some v) =>
        ∃ status_code d, r = UploadResponse status_code (Some (JObj d)) ∧ v = JObj d
                         ∧ accepts r = true
    | _ => accepts r = false
    end.
Proof.
  intros Hin. unfold upload_request; py_unfold. rewrite decide_True by done.
  destruct r as [|status_code body]; simpl.
  { eexists _, _, _. split; [reflexivity|]. split; [step_explicit|]. obs_done. }
  destruct (bool_decide (400 ≤ status_code < 600)) eqn:Hstatus; simpl.
  { eexists _, _, _. split; [reflexivity|]. split; [step_explicit|]. obs_done.
    by destruct body as [[]|]. }
  destruct body as [[|b|n|s|l|d]|]; simpl.
  1-3,7: eexists _, _, _; (split; [reflexivity|]); (split; [step_explicit|]); obs_done.
  - destruct (is_substring "filePath" s), (is_substring "fileName" s); simpl.
    all: eexists _, _, _; (split; [reflexivity|]); (split; [step_explicit|]); obs_done.
  - destruct (existsb (is_JStr "filePath") l), (existsb (is_JStr "fileName") l); simpl.
    all: eexists _, _, _; (split; [reflexivity|]); (split; [step_explicit|]); obs_done.
  - destruct (bool_decide (is_Some (d !! "filePath"))) eqn:Hpath,
      (bool_decide (is_Some (d !! "fileName"))) eqn:Hname; simpl.
    all: eexists _, _, _; (split; [reflexivity|]); (split; [step_explicit|]).
    all: repeat (split; [reflexivity|]).
    + by exists status_code, d.
    + done.
    + done.
    + done.
Qed.

Lemma upload_file_step r p name w :
  p ∈ files w →
  ∃ res tail w',
    upload_file r p name w = (res, w') ∧
    Step w w' tail {[p]} 0 0 ∧
    uploads tail = [(p, name)] ∧
    note_writes tail = [] ∧ user_visible tail = [] ∧ get_files tail = [] ∧
    downloads tail = [] ∧ failure_logs tail = [] ∧
    match res with
    | Returned (Some v) =>
        ∃ status_code d, r = UploadResponse status_code (Some (JObj d)) ∧ v = JObj d
                         ∧ accepts r = true
    | _ => accepts r = false
    end.
Proof.
  intros Hin.
  destruct (upload_request_step r p name w Hin) as (res & tail & w1 & Hreq & Hstep & Hobs).
  destruct (remove_if_exists_step p w1) as (w2 & Hrm & Hstep2).
  exists res, tail, w2. split.
  - unfold upload_file, try_finally. by rewrite Hreq, Hrm.
  - split; [|done].
    pose proof (Step_trans _ _ _ _ _ _ _ _ _ _ _ Hstep Hstep2) as Hst.
    by rewrite app_nil_r, union_empty_l_L in Hst.
Qed.

Lemma upload_file_missing r p name w :
  p ∉ files w → upload_file r p name w = (Raised OSError, w).
Proof.
  intros Hout. unfold upload_file, upload_request, remove_if_exists; py_unfold.
  rewrite decide_False by done. simpl. by rewrite bool_decide_false.
Qed.

Lemma accepts_truthy r status_code d :
  r = UploadResponse status_code (Some (JObj d)) → accepts r = true → truthy (JObj d) = true.
Proof.
  intros -> Hacc. simpl in *.
  apply andb_true_iff in Hacc as [Hacc _]. apply andb_true_iff in Hacc as [_ Hpath].
  apply bool_decide_eq_true in Hpath as [v Hv].
  rewrite bool_decide_false; [done|]. intros ->. by rewrite lookup_empty in Hv.
Qed.

(** ** One attachment *)

Lemma downloaded_then_removed (p : string) (X : gset string) : ({[p]} ∪ X) ∖ {[p]} = X ∖ {[p]}.
Proof. by rewrite difference_union_distr_l_L, difference_diag_L, union_empty_l_L. Qed.

(** Derives [Step w w' ?tail _ _ _] from a step [H] that ends in [w'] (up
    to [next_attempt]) and starts in an explicit world built on [w]. *)
Ltac step_from H :=
  destruct H as [Hg Hq Hc Hf Ht Ha Hn]; simpl in *;
  split; simpl;
  [ by rewrite Hg | by rewrite Hq | by rewrite Hc
  | by rewrite Hf, ?downloaded_then_removed
  | rewrite Ht, <- ?app_assoc; reflexivity
  | lia | lia ].

Ltac obs_app :=
  rewrite ?user_visible_app, ?get_files_app, ?downloads_app, ?uploads_app,
    ?note_writes_app, ?failure_logs_app.

Lemma upload_attachment_step env reply total i fid name acc w :
  ∃ acc' tail w',
    upload_attachment env reply total i fid name acc w = (Returned acc', w') ∧
    Step w w' tail {[temp_path_of name]} 1 0 ∧
    user_visible tail = [EditText reply (progress_text i total)] ∧
    get_files tail = [fid] ∧
    downloads tail = match fetch env (attempts w) with
                     | GetFileRaises => []
                     | _ => [temp_path_of name]
                     end ∧
    uploads tail = match fetch env (attempts w) with
                   | Fetched _ => [(temp_path_of name, name)]
                   | _ => []
                   end ∧
    note_writes tail = [] ∧
    (if fetch_ok (fetch env (attempts w))
     then (∃ d, acc' = acc ++ [d]) ∧ failure_logs tail = []
     else acc' = acc ∧ failure_logs tail = [name]).
Proof.
  unfold upload_attachment, edit_text, bot_get_file, tg_download, upload_reply.
  py_unfold. simpl.
  destruct (fetch env (attempts w)) as [|written|r] eqn:Hfetch; simpl;
    rewrite ?Hfetch; simpl; rewrite ?Hfetch; simpl.
  - (* get_file raises *)
    match goal with |- context [remove_if_exists ?p ?w1] =>
      destruct (remove_if_exists_step p w1) as (w2 & -> & Hstep) end.
    eexists _, _, _. split; [reflexivity|]. split; [step_from Hstep|].
    simpl. repeat (split; [done || by apply sublist_nil_l|]). done.
  - (* download raises *)
    destruct written.
    all: match goal with |- context [remove_if_exists ?p ?w1] =>
      destruct (remove_if_exists_step p w1) as (w2 & -> & Hstep) end.
    all: eexists _, _, _; (split; [reflexivity|]); (split; [step_from Hstep|]).
    all: simpl; repeat (split; [done || by apply sublist_nil_l|]); done.
  - (* the file is on disk *)
    match goal with |- context [upload_file r ?p name ?w1] =>
      destruct (upload_file_step r p name w1) as (res & tail & w2 & -> & Hstep & Hobs) end.
    { simpl. apply elem_of_union_l. by apply elem_of_singleton. }
    destruct Hobs as (Hup & Hnw & Huv & Hgf & Hdl & Hfl & Hres).
    destruct res as [[v|]|e].
    + destruct Hres as (status_code & d & -> & -> & Hacc).
      rewrite (accepts_truthy _ _ _ eq_refl Hacc), Hacc. unfold descriptor_of; py_unfold.
      eexists _, _, _. split; [reflexivity|]. split; [step_from Hstep|].
      obs_app. rewrite ?Hup, ?Hnw, ?Huv, ?Hgf, ?Hdl, ?Hfl. simpl.
      repeat (split; [done|]). split; [|done]. by eexists.
    + rewrite Hres. simpl.
      eexists _, _, _. split; [reflexivity|]. split; [step_from Hstep|].
      obs_app. rewrite ?Hup, ?Hnw, ?Huv, ?Hgf, ?Hdl, ?Hfl. simpl.
      repeat (split; [done|]). done.
    + rewrite Hres. simpl.
      match goal with |- context [remove_if_exists ?p ?w1] =>
        destruct (remove_if_exists_step p w1) as (w3 & -> & Hstep3) end.
      pose proof (Step_trans _ _ _ _ _ _ _ _ _ _ _ Hstep (Step_trans _ _ _ _ _ _ _ _ _ _ _
        (Step_emit (Log (ErrorGroupFileException name e)) w2) Hstep3)) as Hst.
      rewrite union_empty_l_L, union_idemp_L in Hst.
      eexists _, _, _. split; [reflexivity|]. split; [step_from Hst|].
      obs_app. rewrite ?Hup, ?Hnw, ?Huv, ?Hgf, ?Hdl, ?Hfl. simpl.
      repeat (split; [done|]). done.
Qed.

(** ** The loop *)

Lemma file_messages_cons msg rest :
  file_messages (msg :: rest) =
  match select_file msg with
  | Some f => f :: file_messages rest
  | None => file_messages rest
  end.
Proof. done. Qed.

Lemma upload_loop_step env reply total msgs :
  ∀ i acc w,
  ∃ new tail w',
    upload_loop env reply total i msgs acc w = (Returned (acc ++ new), w') ∧
    Step w w' tail (list_to_set (temp_paths msgs)) (length (file_messages msgs)) 0 ∧
    LoopFacts env reply (attempts w) (file_messages msgs) tail (length new).
Proof.
  induction msgs as [|msg rest IH]; intros i acc w.
  - exists [], [], w. split; [by rewrite app_nil_r|]. split; [apply Step_refl|].
    split; simpl; done.
  - unfold temp_paths in *. rewrite file_messages_cons. simpl.
    destruct (select_file msg) as [[fid name]|] eqn:Hsel; [|apply IH].
    unfold mbind at 1, Py_bind at 1.
    destruct (upload_attachment_step env reply total i fid name acc w)
      as (acc1 & tail1 & w1 & -> & Hstep1 & Hvis & Hget & Hdl & Hup & Hnote & Hres).
    destruct (IH (S i) acc1 w1) as (new2 & tail2 & w2 & -> & Hstep2 & Hfacts).
    assert (attempts w1 = S (attempts w)) as Hatt
      by (rewrite (step_attempts _ _ _ _ _ _ Hstep1); lia).
    rewrite Hatt in Hfacts. destruct Hfacts.
    assert (∃ new1, acc1 = acc ++ new1 ∧
              length new1 = (if fetch_ok (fetch env (attempts w)) then 1 else 0)%nat ∧
              (length (failure_logs tail1) + length new1 = 1)%nat) as (new1 & -> & Hlen1 & Hfail1).
    { destruct (fetch_ok (fetch env (attempts w))).
      - destruct Hres as [[d ->] ->]. by exists [d].
      - destruct Hres as [-> ->]. exists []. by rewrite app_nil_r. }
    exists (new1 ++ new2), (tail1 ++ tail2), w2.
    split; [by rewrite app_assoc|]. split; [apply (Step_trans _ _ _ _ _ _ _ _ _ _ _ Hstep1 Hstep2)|].
    split; simpl; obs_app.
    + rewrite Hvis. simpl. constructor; eauto.
    + by rewrite Hget, loop_get_files0.
    + apply (sublist_app _ [_]); [|done]. rewrite Hdl.
      destruct (fetch env (attempts w)); [apply sublist_nil_l|done..].
    + apply (sublist_app _ [_]); [|done]. rewrite Hup.
      destruct (fetch env (attempts w)); [apply sublist_nil_l..|done].
    + by rewrite Hnote, loop_no_note0.
    + rewrite length_app, Hlen1, loop_collected0. done.
    + rewrite !length_app. lia.
    + by rewrite Hdl, loop_downloads_exact0.
    + by rewrite Hup, loop_uploads_exact0.
Qed.

(** ** [create_note] *)

Lemma create_note_step env content atts w :
  ∃ w',
    create_note env content atts w = (Returned (note_ok (note_reply env (notes w))), w') ∧
    Step w w'
      ([PostNote content atts] ++
       (if note_ok (note_reply env (notes w)) then [Log InfoNoteCreated]
        else [Log (ErrorNoteFailed RequestException)])) ∅ 0 1.
Proof.
  unfold create_note, post_note; py_unfold.
  destruct (note_reply env (notes w)) as [|status_code]; simpl.
  - eexists. split; [reflexivity|]. step_explicit.
  - destruct (bool_decide (400 ≤ status_code < 600)); simpl.
    all: eexists; (split; [reflexivity|]); step_explicit.
Qed.

(** ** [process_media_group] *)

Lemma Step_eq w w' t t' g g' a a' n n' :
  Step w w' t g a n → t = t' → g = g' → a = a' → n = n' → Step w w' t' g' a' n'.
Proof. by intros ? <- <- <- <-. Qed.

Lemma finalize_messages_step env orig msgs w :
  let reply := {| in_reply_to := orig; sent_at := length (trace w) |} in
  ∃ atts tail w',
    finalize_messages env orig msgs w = (Returned (), w') ∧
    Step w w'
      ([ReplyText orig (header_text msgs)] ++ tail
       ++ closing env (notes w) reply (determine_caption msgs) atts)
      (list_to_set (temp_paths msgs)) (length (file_messages msgs))
      (match atts with [] => 0 | _ :: _ => 1 end) ∧
    LoopFacts env reply (attempts w) (file_messages msgs) tail (length atts).
Proof.
  intros reply. unfold finalize_messages, reply_text, edit_text.
  unfold mbind at 1, Py_bind at 1. fold reply.
  unfold mbind at 1, Py_bind at 1.
  destruct (upload_loop_step env reply (length msgs) msgs 0 [] (emit (ReplyText orig (header_text msgs)) w))
    as (atts & tail & w1 & -> & Hloop & Hfacts).
  simpl in Hfacts. rewrite app_nil_l. exists atts, tail.
  pose proof (Step_trans _ _ _ _ _ _ _ _ _ _ _
                (Step_emit (ReplyText orig (header_text msgs)) w) Hloop) as Hst1.
  destruct atts as [|d atts].
  - py_unfold. eexists. split; [reflexivity|]. split; [|done].
    eapply Step_eq.
    { exact (Step_trans _ _ _ _ _ _ _ _ _ _ _ Hst1 (Step_emit _ w1)). }
    + by rewrite <- app_assoc.
    + by rewrite union_empty_l_L, union_empty_r_L.
    + simpl. lia.
    + done.
  - unfold mbind at 1, Py_bind at 1. unfold modify at 1.
    unfold mbind at 1, Py_bind at 1.
    destruct (create_note_step env (determine_caption msgs) (d :: atts)
                (emit (EditText reply "所有文件上传成功，正在创建最终笔记...") w1))
      as (w2 & -> & Hnote).
    assert (notes w1 = notes w) as Hnotes
      by (rewrite (step_notes _ _ _ _ _ _ Hst1); lia).
    cbn [notes emit] in *. rewrite Hnotes in *.
    pose proof (Step_trans _ _ _ _ _ _ _ _ _ _ _ Hst1
      (Step_trans _ _ _ _ _ _ _ _ _ _ _ (Step_emit _ w1) Hnote)) as Hst2.
    destruct (note_ok (note_reply env (notes w))) eqn:Hok; py_unfold.
    all: eexists; (split; [reflexivity|]); (split; [|done]).
    all: eapply Step_eq;
      [ exact (Step_trans _ _ _ _ _ _ _ _ _ _ _ Hst2 (Step_emit _ w2))
      | unfold closing; rewrite Hok, <- ?app_assoc; reflexivity
      | by rewrite ?union_empty_l_L, ?union_empty_r_L
      | simpl; lia
      | simpl; lia ].
Qed.

Lemma process_media_group_absent env context w :
  media_groups w ≫= (.!! ctx_media_group_id context) = None →
  process_media_group env context w = (Returned (), w).
Proof.
  intros Hnone. unfold process_media_group, pop_media_group; py_unfold.
  destruct (media_groups w) as [table|] eqn:Htable; [|done].
  simpl in Hnone. rewrite Hnone. rewrite delete_id by done.
  destruct w; simpl in *. by rewrite Htable.
Qed.

Lemma process_media_group_present env context w table data :
  media_groups w = Some table →
  table !! ctx_media_group_id context = Some data →
  messages data ≠ [] →
  process_media_group env context w =
  finalize_messages env (ctx_original_message context) (messages data)
    (set_media_groups (Some (delete (ctx_media_group_id context) table)) w).
Proof.
  intros Htable Hdata Hne. unfold process_media_group, pop_media_group; py_unfold.
  rewrite Htable, Hdata. by destruct (messages data).
Qed.

(** ** The job queue *)

Lemma set_job_queue_id w : set_job_queue (job_queue w) w = w.
Proof. by destruct w. Qed.

Lemma filter_agree {A} (P1 P2 : A → Prop)
    `{!∀ x, Decision (P1 x), !∀ x, Decision (P2 x)} (l : list A) :
  (∀ x, x ∈ l → (P1 x ↔ P2 x)) → filter P1 l = filter P2 l.
Proof.
  induction l as [|a l IH]; intros Hiff; [done|].
  rewrite !filter_cons.
  rewrite IH by (intros x Hx; apply Hiff; by right).
  apply decide_ext, Hiff. by left.
Qed.

Lemma filter_all {A} (P : A → Prop) `{!∀ x, Decision (P x)} (l : list A) :
  (∀ x, x ∈ l → P x) → filter P l = l.
Proof.
  induction l as [|a l IH]; intros Hall; [done|].
  rewrite filter_cons_True by (apply Hall; by left).
  f_equal. apply IH. intros x Hx. apply Hall. by right.
Qed.

Lemma remove_all_run jobs w :
  remove_all jobs w = (Returned (), set_job_queue (filter (λ j, j ∉ jobs) (job_queue w)) w).
Proof.
  revert w. induction jobs as [|job rest IH]; intros w.
  - simpl. unfold mret, Py_ret. f_equal. rewrite <- (set_job_queue_id w) at 1. f_equal.
    symmetry. apply filter_all. intros j _. apply not_elem_of_nil.
  - simpl. unfold schedule_removal, modify, mbind, Py_bind. rewrite IH. simpl.
    f_equal. unfold set_job_queue. simpl. f_equal.
    rewrite list_filter_filter. apply list_filter_iff. intros j.
    rewrite not_elem_of_cons. tauto.
Qed.

Lemma cancel_named name (q : list Job) :
  filter (λ j, j ∉ filter (λ j, job_name j = name) q) q = filter (λ j, job_name j ≠ name) q.
Proof.
  apply filter_agree. intros j Hj. rewrite list_elem_of_filter. tauto.
Qed.

Lemma enqueue_Permutation job q : enqueue job q ≡ₚ job :: q.
Proof.
  induction q as [|j q IH]; simpl; [done|].
  case_bool_decide; [done|]. rewrite IH. apply Permutation_swap.
Qed.

(** ** [handle_file] *)

Lemma accumulate_run gid msg w :
  accumulate gid msg w =
  (Returned (),
   set_media_groups
     (Some (<[gid := match default ∅ (media_groups w) !! gid with
                     | None => new_record msg
                     | Some data => append_message msg data
                     end]> (default ∅ (media_groups w)))) w).
Proof.
  unfold accumulate, modify. cbn zeta.
  by destruct (default ∅ (media_groups w) !! gid).
Qed.

Lemma handle_file_grouped msg gid w :
  media_group_id msg = Some gid → gid ≠ "" →
  let table := default ∅ (media_groups w) in
  let data := match table !! gid with
              | None => new_record msg
              | Some data => append_message msg data
              end in
  ∃ w',
    handle_file msg w = (Returned (), w') ∧
    media_groups w' = Some (<[gid := data]> table) ∧
    job_queue w' =
      enqueue (group_job gid (original_message data) (clock w))
        (filter (λ j, job_name j ≠ gid) (job_queue w)) ∧
    clock w' = clock w ∧
    Silent w w'.
Proof.
  intros Hgid Hreal table data. unfold handle_file. rewrite Hgid.
  destruct gid as [|c gid]; [done|]. cbn [str_truthy default].
  unfold mbind at 1, Py_bind at 1. rewrite accumulate_run. fold table. fold data.
  unfold stored_original, get_jobs_by_name, run_once, modify, mbind, Py_bind.
  cbn [media_groups set_media_groups option_bind]. simpl.
  rewrite lookup_insert_eq, remove_all_run. simpl.
  eexists. split; [reflexivity|]. simpl. rewrite cancel_named. done.
Qed.

Lemma handle_file_single msg w :
  str_truthy (media_group_id msg) = false →
  ∃ w',
    handle_file msg w = (Returned (), w') ∧
    media_groups w' =
      Some (<[virtual_group_id (message_id msg) := new_record msg]> (default ∅ (media_groups w))) ∧
    job_queue w' = enqueue (single_job msg (clock w)) (job_queue w) ∧
    clock w' = clock w ∧
    Silent w w'.
Proof.
  intros Hnone. unfold handle_file. rewrite Hnone.
  unfold register_single, run_once, modify, mbind, Py_bind. simpl.
  eexists. split; [reflexivity|]. done.
Qed.

(** ** The event loop *)

Lemma process_media_group_step env context w :
  ∃ tail gone a n w',
    process_media_group env context w = (Returned (), w') ∧
    Step (set_media_groups (delete (ctx_media_group_id context) <$> media_groups w) w)
      w' tail gone a n.
Proof.
  destruct (media_groups w) as [table|] eqn:Htable.
  - destruct (table !! ctx_media_group_id context) as [data|] eqn:Hdata.
    + destruct (decide (messages data = [])) as [Hnil|Hne].
      * unfold process_media_group, pop_media_group; py_unfold.
        rewrite Htable, Hdata, Hnil. eexists [], ∅, 0%nat, 0%nat, _.
        split; [reflexivity|]. apply Step_refl.
      * rewrite (process_media_group_present _ _ _ _ _ Htable Hdata Hne).
        destruct (finalize_messages_step env (ctx_original_message context) (messages data)
                    (set_media_groups (Some (delete (ctx_media_group_id context) table)) w))
          as (atts & tail & w' & -> & Hstep & _).
        by eexists _, _, _, _, _.
    + unfold process_media_group, pop_media_group; py_unfold.
      rewrite Htable, Hdata. eexists [], ∅, 0%nat, 0%nat, _.
      split; [reflexivity|]. apply Step_refl.
  - unfold process_media_group, pop_media_group; py_unfold. rewrite Htable.
    eexists [], ∅, 0%nat, 0%nat, _. split; [reflexivity|].
    split; simpl; rewrite ?Htable, ?difference_empty_L, ?app_nil_r; try done; lia.
Qed.

Lemma run_job_queue env job rest w : job_queue (run_job env job rest w) = rest.
Proof.
  unfold run_job.
  destruct (process_media_group_step env (job_context job)
              (set_job_queue rest (set_clock (job_due job `max` clock w) w)))
    as (tail & gone & a & n & w' & -> & Hstep).
  simpl. by rewrite (step_queue _ _ _ _ _ _ Hstep).
Qed.

Lemma fire_due_queue env t q :
  ∀ w, job_queue w = q → job_queue (fire_due env t q w) `suffix_of` q.
Proof.
  induction q as [|job rest IH]; intros w Hq; simpl.
  - by rewrite Hq.
  - case_bool_decide; [|by rewrite Hq].
    apply suffix_cons_r, IH, run_job_queue.
Qed.

Lemma fire_due_later env t job rest w : t < job_due job → fire_due env t (job :: rest) w = w.
Proof. intros Hlt. simpl. rewrite bool_decide_false; [done|lia]. Qed.

Lemma fire_due_one env t job w :
  job_due job ≤ t → fire_due env t [job] w = run_job env job [] w.
Proof. intros Hle. simpl. by rewrite bool_decide_true. Qed.

(** ** A burst of messages of one group *)

Lemma Silent_refl w : Silent w w.
Proof. done. Qed.

Lemma Silent_trans w1 w2 w3 : Silent w1 w2 → Silent w2 w3 → Silent w1 w3.
Proof. intros [] []. split; congruence. Qed.

Lemma deliver_first env gid w0 t1 first :
  media_group_id first = Some gid → gid ≠ "" →
  job_queue w0 = [] → media_groups w0 ≫= (.!! gid) = None → clock w0 ≤ t1 →
  Accumulated gid w0 [first] first t1 (deliver env w0 (t1, first)).
Proof.
  intros Hgid Hreal Hidle Hfresh Hstart. unfold deliver, advance. rewrite Hidle. simpl.
  destruct (handle_file_grouped first gid (set_clock (t1 `max` clock w0) w0) Hgid Hreal)
    as (w' & -> & Hgroups & Hqueue & Hclock & Hsilent).
  simpl in *. rewrite Hidle in Hqueue. simpl in Hqueue.
  assert (default ∅ (media_groups w0) !! gid = None) as Hnone.
  { destruct (media_groups w0); [done|]. apply lookup_empty. }
  rewrite Hnone in Hgroups, Hqueue. replace (t1 `max` clock w0) with t1 in * by lia.
  split; try done. by destruct Hsilent.
Qed.

Lemma deliver_next env gid w0 msgs orig t w t' msg :
  Accumulated gid w0 msgs orig t w →
  media_group_id msg = Some gid → gid ≠ "" →
  t ≤ t' < t + MEDIA_GROUP_COLLECTION_DELAY →
  Accumulated gid w0 (msgs ++ [msg]) orig t' (deliver env w (t', msg)).
Proof.
  intros [Hgroups Hqueue Hclock Hsilent] Hgid Hreal Htime. unfold deliver, advance.
  rewrite Hqueue, fire_due_later by (simpl; lia). simpl.
  destruct (handle_file_grouped msg gid (set_clock (t' `max` clock w) w) Hgid Hreal)
    as (w' & -> & Hgroups' & Hqueue' & Hclock' & Hsilent').
  simpl in *. rewrite Hgroups in Hgroups', Hqueue'. simpl in *.
  rewrite lookup_insert_eq in Hgroups', Hqueue'. rewrite insert_insert_eq in Hgroups'.
  rewrite Hqueue in Hqueue'. unfold group_job in Hqueue' at 2.
  rewrite filter_cons_False in Hqueue' by (simpl; tauto). simpl in Hqueue'.
  replace (t' `max` clock w) with t' in * by lia.
  split; try done. destruct Hsilent, Hsilent'. split; simpl in *; congruence.
Qed.

Lemma last_time_cons t0 ev rest : last_time t0 (ev :: rest) = last_time ev.1 rest.
Proof.
  unfold last_time. destruct rest as [|ev' rest]; [done|].
  rewrite !fmap_cons, last_cons_cons.
  destruct (last (ev'.1 :: rest.*1)) eqn:Hlast; [done|].
  by apply last_None in Hlast.
Qed.

Lemma run_burst env gid w0 rest :
  ∀ msgs orig t w,
  Accumulated gid w0 msgs orig t w →
  Forall (λ ev, media_group_id ev.2 = Some gid) rest → gid ≠ "" →
  burst t rest →
  Accumulated gid w0 (msgs ++ rest.*2) orig (last_time t rest) (run env rest w).
Proof.
  induction rest as [|[t' msg] rest IH]; intros msgs orig t w Hacc Hall Hreal Hburst.
  - simpl. by rewrite app_nil_r.
  - apply Forall_cons in Hall as [Hmsg Hall]. destruct Hburst as [Htime Hburst].
    rewrite last_time_cons. simpl. rewrite (cons_middle msg), app_assoc.
    apply IH; try done.
    by apply (deliver_next env gid w0 msgs orig t w t' msg).
Qed.

Lemma finalize_burst env gid w0 msgs orig t w T :
  Accumulated gid w0 msgs orig t w → msgs ≠ [] →
  t + MEDIA_GROUP_COLLECTION_DELAY ≤ T →
  ∃ atts tail, Finalized env gid w0 orig msgs (advance env T w) atts tail.
Proof.
  intros [Hgroups Hqueue Hclock [Hfiles Htrace Hattempts Hnotes]] Hne Hdue.
  unfold advance. rewrite Hqueue, fire_due_one by done. unfold run_job.
  set (w_in := set_job_queue [] (set_clock _ w)).
  rewrite (process_media_group_present env _ w_in _
             {| messages := msgs; original_message := orig |} Hgroups)
    by (done || apply lookup_insert_eq).
  cbn [group_job job_context ctx_media_group_id ctx_original_message messages].
  destruct (finalize_messages_step env orig msgs
              (set_media_groups
                 (Some (delete gid (<[gid:={| messages := msgs; original_message := orig |}]>
                                      (default ∅ (media_groups w0))))) w_in))
    as (atts & tail & w2 & -> & [Hg Hq Hc Hf Ht Ha Hn] & Hfacts).
  simpl in *. rewrite Htrace, Hnotes, Hattempts in *.
  exists atts, tail. split; simpl.
  - done.
  - done.
  - rewrite Hg. simpl. apply lookup_delete_eq.
  - by rewrite Hq.
  - by rewrite Hf, Hfiles.
Qed.

Lemma group_burst_run env gid w0 t1 first rest :
  GroupBurst gid w0 t1 first rest →
  Accumulated gid w0 (first :: rest.*2) first (last_time t1 rest)
    (run env ((t1, first) :: rest) w0).
Proof.
  intros []. simpl.
  apply (run_burst env gid w0 rest [first] first t1); try done.
  by apply deliver_first.
Qed.

Lemma group_burst_finalized env gid w0 t1 first rest T :
  GroupBurst gid w0 t1 first rest →
  last_time t1 rest + MEDIA_GROUP_COLLECTION_DELAY ≤ T →
  ∃ atts tail,
    Finalized env gid w0 first (first :: rest.*2)
      (advance env T (run env ((t1, first) :: rest) w0)) atts tail.
Proof.
  intros Hburst Hdue.
  by apply (finalize_burst env gid w0 _ first (last_time t1 rest));
    [apply group_burst_run| |].
Qed.

(** ** The examples of the specification, run on the model *)

(** Three photos of group "G1", 0.2 s apart, the second with the caption
    "puppy": nothing has happened 1.499 s after the last one, and 1.5 s after
    it one note has been requested, with the content "puppy" and three
    attachments. *)
Example puppy_group_runs :
  let w1 := run env_up ((0, puppy_first) :: puppy_rest) initial in
  trace (advance env_up 1899 w1) = [] ∧
  (λ n, (n.1, length n.2)) <$> note_writes (trace (advance env_up 1900 w1)) = [("puppy", 3%nat)] ∧
  media_groups (advance env_up 1900 w1) = Some ∅ ∧
  files (advance env_up 1900 w1) = ∅.
Proof. vm_compute. done. Qed.

(** A response that is a JSON list holding the two key names passes the
    [in] tests and fails on [get]: the upload is dropped and the file
    removed. *)
Example upload_file_list_response :
  let r := UploadResponse 200 (Some (JArr [JStr "filePath"; JStr "fileName"])) in
  let w := set_files {["./a.jpg"]} initial in
  (upload_file r "./a.jpg" (Some "a.jpg") w).1 = Raised AttributeError ∧
  files (upload_file r "./a.jpg" (Some "a.jpg") w).2 = ∅.
Proof. vm_compute. done. Qed.

(** A message of a group that arrives after the group was finalized starts
    a new record. *)
Example late_message_starts_new_group :
  let late := photo_message 4 (Some "G1") None "p4" in
  let w := run env_up [(0, puppy_first); (5000, late)] initial in
  messages <$> (media_groups w ≫= (.!! "G1")) = Some [late] ∧
  length (note_writes (trace w)) = 1%nat.
Proof. vm_compute. done. Qed.

(** * The claims *)

(** ** The upload response *)

Lemma upload_success_accepts r p name w :
  treated_as_success r p name w ↔ p ∈ files w ∧ accepts r = true.
Proof.
  unfold treated_as_success. split.
  - intros (v & Hres & _).
    destruct (decide (p ∈ files w)) as [Hin|Hout].
    + split; [done|].
      destruct (upload_file_step r p name w Hin) as (res & tail & w' & Heq & _ & Hobs).
      rewrite Heq in Hres. simpl in Hres. subst res.
      by destruct Hobs as (_ & _ & _ & _ & _ & _ & _ & _ & _ & _ & ?).
    + by rewrite upload_file_missing in Hres.
  - intros [Hin Hacc].
    destruct (upload_file_step r p name w Hin) as (res & tail & w' & Heq & _ & Hobs).
    destruct Hobs as (_ & _ & _ & _ & _ & _ & Hres). rewrite Heq. simpl.
    destruct res as [[v|]|e]; try congruence.
    destruct Hres as (status_code & d & Hr & -> & _).
    exists (JObj d). split; [done|]. by apply (accepts_truthy r status_code d).
Qed.

(** C4, counterexample. The backend answers 200 with a JSON object that has
    [fileName] and [filePath] but neither [size] nor [type]: [upload_file]
    returns the object and the caller keeps it. The same happens for a
    status 304 with the four fields: [raise_for_status] raises from 400 on
    only. Neither response is a success as the specification words it. *)
Lemma upload_accepts_unclaimed_counterexample :
  let w := set_files {["./a.jpg"]} initial in
  let r1 := UploadResponse 200 (Some (JObj (stored "a.jpg" "/api/file/a.jpg"))) in
  let r2 := UploadResponse 304 (Some (JObj (stored_full "a.jpg" "/api/file/a.jpg"))) in
  (treated_as_success r1 "./a.jpg" (Some "a.jpg") w ∧ ¬ claimed_success r1) ∧
  (treated_as_success r2 "./a.jpg" (Some "a.jpg") w ∧ ¬ claimed_success r2).
Proof.
  intros w r1 r2. repeat split.
  - eexists. split; vm_compute; reflexivity.
  - intros (status_code & d & Heq & _ & _ & _ & Hsize & _).
    injection Heq as _ <-. vm_compute in Hsize. by destruct Hsize.
  - eexists. split; vm_compute; reflexivity.
  - intros (status_code & d & Heq & Hstatus & _).
    injection Heq as <- _. lia.
Qed.

(** C4, amended. [upload_file] gives a result that its caller keeps exactly
    when the file is there to be sent, a response arrives whose status is
    not in 400..599, its body is a JSON object, and the object has the keys
    [filePath] and [fileName]; the result is then that object. The keys
    [size] and [type] are not looked at. *)
Theorem upload_success_iff r p name w :
  (treated_as_success r p name w ↔
   p ∈ files w ∧
   ∃ status_code d,
     r = UploadResponse status_code (Some (JObj d)) ∧
     ¬ (400 ≤ status_code < 600) ∧
     is_Some (d !! "filePath") ∧ is_Some (d !! "fileName")) ∧
  (∀ v, (upload_file r p name w).1 = Returned (Some v) →
        ∃ status_code, r = UploadResponse status_code (Some v)).
Proof.
  split.
  - rewrite upload_success_accepts. split; intros [Hin H]; (split; [done|]).
    + destruct r as [|status_code [[| | | | |d]|]]; try done.
      simpl in H. apply andb_true_iff in H as [H Hname].
      apply andb_true_iff in H as [Hstatus Hpath].
      exists status_code, d. split; [done|].
      apply negb_true_iff, bool_decide_eq_false in Hstatus.
      apply bool_decide_eq_true in Hpath, Hname. done.
    + destruct H as (status_code & d & -> & Hstatus & Hpath & Hname). simpl.
      rewrite (bool_decide_false _ Hstatus), (bool_decide_true _ Hpath),
        (bool_decide_true _ Hname). done.
  - intros v Hres.
    destruct (decide (p ∈ files w)) as [Hin|Hout].
    + destruct (upload_file_step r p name w Hin) as (res & tail & w' & Heq & _ & Hobs).
      rewrite Heq in Hres. simpl in Hres. subst res.
      destruct Hobs as (_ & _ & _ & _ & _ & _ & status_code & d & -> & -> & _). by eexists.
    + by rewrite upload_file_missing in Hres.
Qed.

(** ** The caption *)

Lemma first_caption_found pre m post c :
  Forall no_caption pre → caption m = Some c → c ≠ "" →
  first_caption (pre ++ m :: post) = c.
Proof.
  intros Hpre Hm Hc. induction Hpre as [|x pre Hx _ IH]; simpl.
  - rewrite Hm. by destruct c.
  - unfold no_caption in Hx. by rewrite Hx.
Qed.

Lemma first_caption_none msgs : Forall no_caption msgs → first_caption msgs = "".
Proof.
  induction 1 as [|x msgs Hx _ IH]; simpl; [done|].
  unfold no_caption in Hx. by rewrite Hx.
Qed.

Lemma determine_caption_found pre m post c :
  Forall no_caption pre → caption m = Some c → c ≠ "" →
  determine_caption (pre ++ m :: post) = c.
Proof.
  intros Hpre Hm Hc. unfold determine_caption.
  rewrite (first_caption_found pre m post c) by done. by destruct c.
Qed.

Lemma determine_caption_none msgs :
  Forall no_caption msgs →
  determine_caption msgs =
  if bool_decide (length msgs = 1%nat) then placeholder_single else placeholder_group.
Proof. intros Hnone. unfold determine_caption. by rewrite first_caption_none. Qed.

(** The trace that [process_media_group] adds when the record is there. *)
Lemma process_media_group_trace env context w table data :
  media_groups w = Some table →
  table !! ctx_media_group_id context = Some data →
  messages data ≠ [] →
  let msgs := messages data in
  let reply := {| in_reply_to := ctx_original_message context; sent_at := length (trace w) |} in
  ∃ atts tail w',
    process_media_group env context w = (Returned (), w') ∧
    trace w' =
      trace w ++ [ReplyText (ctx_original_message context) (header_text msgs)] ++ tail
      ++ closing env (notes w) reply (determine_caption msgs) atts ∧
    LoopFacts env reply (attempts w) (file_messages msgs) tail (length atts) ∧
    files w' = files w ∖ list_to_set (temp_paths msgs) ∧
    media_groups w' = Some (delete (ctx_media_group_id context) table) ∧
    job_queue w' = job_queue w.
Proof.
  intros Htable Hdata Hne msgs reply.
  rewrite (process_media_group_present _ _ _ _ _ Htable Hdata Hne).
  destruct (finalize_messages_step env (ctx_original_message context) msgs
              (set_media_groups (Some (delete (ctx_media_group_id context) table)) w))
    as (atts & tail & w' & Heq & [Hg Hq Hc Hf Ht Ha Hn] & Hfacts).
  exists atts, tail, w'. simpl in *. done.
Qed.

Lemma note_writes_closing env k reply content atts :
  note_writes (closing env k reply content atts) =
  match atts with [] => [] | _ :: _ => [(content, atts)] end.
Proof. destruct atts; [done|]. simpl. by destruct (note_ok _). Qed.

Lemma note_writes_finalized env k orig text reply content tail atts :
  note_writes tail = [] →
  note_writes ([ReplyText orig text] ++ tail ++ closing env k reply content atts) =
  match atts with [] => [] | _ :: _ => [(content, atts)] end.
Proof.
  intros Htail. by rewrite !note_writes_app, Htail, note_writes_closing.
Qed.

(** C5. When a group is finalized and at least one of its uploads is
    accepted, one note is requested, and its content is the caption of the
    first message, in the order of the record, whose caption is not empty;
    when no message has one, it is [placeholder_single] for a group of one
    message and [placeholder_group] otherwise, and the two texts differ.
    When no upload is accepted no note is requested. *)
Theorem note_content env context w table data :
  media_groups w = Some table →
  table !! ctx_media_group_id context = Some data →
  let msgs := messages data in
  let ok := successes env (attempts w) (length (file_messages msgs)) in
  ∃ new content,
    trace (process_media_group env context w).2 = trace w ++ new ∧
    (ok ≠ 0%nat → ∃ atts, note_writes new = [(content, atts)] ∧ length atts = ok) ∧
    (ok = 0%nat → note_writes new = []) ∧
    (∀ pre m post c,
       msgs = pre ++ m :: post → Forall no_caption pre →
       caption m = Some c → c ≠ "" → content = c) ∧
    (Forall no_caption msgs → length msgs = 1%nat → content = placeholder_single) ∧
    (Forall no_caption msgs → length msgs ≠ 1%nat → content = placeholder_group) ∧
    placeholder_single ≠ placeholder_group.
Proof.
  intros Htable Hdata msgs ok.
  assert (∃ new, trace (process_media_group env context w).2 = trace w ++ new ∧
                 (ok ≠ 0%nat → ∃ atts, note_writes new = [(determine_caption msgs, atts)]
                                       ∧ length atts = ok) ∧
                 (ok = 0%nat → note_writes new = [])) as (new & Htrace & Hsome & Hnone).
  { destruct (decide (messages data = [])) as [Hnil|Hne].
    - exists []. split; [|split; [|done]].
      + unfold process_media_group, pop_media_group; py_unfold.
        rewrite Htable, Hdata, Hnil. simpl. by rewrite app_nil_r.
      + intros Hok. exfalso. apply Hok. unfold ok, msgs. by rewrite Hnil.
    - destruct (process_media_group_trace env context w table data Htable Hdata Hne)
        as (atts & tail & w' & -> & Htrace & Hfacts & _).
      eexists. split; [exact Htrace|].
      rewrite note_writes_finalized by apply Hfacts.
      pose proof (loop_collected _ _ _ _ _ _ Hfacts) as Hlen. fold msgs ok in Hlen.
      destruct atts as [|d atts]; simpl in Hlen.
      + split; [by intros Hok|done].
      + split; [|intros Hok; by rewrite Hok in Hlen].
        intros _. by exists (d :: atts). }
  exists new, (determine_caption msgs). split; [done|]. split; [done|]. split; [done|].
  split; [|split; [|split; [|done]]].
  - intros pre m post c -> Hpre Hm Hc. by apply determine_caption_found.
  - intros Hno Hlen. rewrite determine_caption_none by done. by rewrite bool_decide_true.
  - intros Hno Hlen. rewrite determine_caption_none by done. by rewrite bool_decide_false.
Qed.

Lemma note_content_witness :
  ∃ new content,
    trace (process_media_group env_up puppy_context puppy_world).2
    = trace puppy_world ++ new ∧
    (3%nat ≠ 0%nat → ∃ atts, note_writes new = [(content, atts)] ∧ length atts = 3%nat) ∧
    (3%nat = 0%nat → note_writes new = []) ∧
    (∀ pre m post c,
       puppy_messages = pre ++ m :: post → Forall no_caption pre →
       caption m = Some c → c ≠ "" → content = c) ∧
    (Forall no_caption puppy_messages → length puppy_messages = 1%nat →
     content = placeholder_single) ∧
    (Forall no_caption puppy_messages → length puppy_messages ≠ 1%nat →
     content = placeholder_group) ∧
    placeholder_single ≠ placeholder_group.
Proof.
  apply (note_content env_up puppy_context puppy_world {["G1" := puppy_record]} puppy_record).
  - reflexivity.
  - reflexivity.
Defined.

(** ** The local copy *)

Lemma temp_path_listed msgs msg fid name :
  msg ∈ msgs → select_file msg = Some (fid, name) → temp_path_of name ∈ temp_paths msgs.
Proof.
  intros Hin Hsel. unfold temp_paths, file_messages.
  apply list_elem_of_fmap. exists (fid, name). split; [done|].
  apply list_elem_of_omap. by exists msg.
Qed.

(** C8. The local file [temp_path] of an attachment does not exist when the
    processing of that attachment ends, whatever the environment does:
    [get_file] raising, [download] raising with or without the file written,
    any answer of the backend to the upload, and any exception inside
    [upload_file]; and none of these files exists when [process_media_group]
    returns. [upload_file] itself never leaves its [file_path] behind. *)
Theorem temp_file_removed env context w table data :
  media_groups w = Some table →
  table !! ctx_media_group_id context = Some data →
  (∀ msg fid name,
     msg ∈ messages data → select_file msg = Some (fid, name) →
     temp_path_of name ∉ files (process_media_group env context w).2) ∧
  (∀ reply total i fid name acc w1,
     temp_path_of name ∉ files (upload_attachment env reply total i fid name acc w1).2) ∧
  (∀ r p name w1, p ∉ files (upload_file r p name w1).2).
Proof.
  intros Htable Hdata. split; [|split].
  - intros msg fid name Hin Hsel.
    assert (messages data ≠ []) as Hne by (intros Hnil; rewrite Hnil in Hin; by apply elem_of_nil in Hin).
    destruct (process_media_group_trace env context w table data Htable Hdata Hne)
      as (atts & tail & w' & -> & _ & _ & Hfiles & _).
    simpl. rewrite Hfiles. intros [_ Hnot]%elem_of_difference. apply Hnot.
    apply elem_of_list_to_set. by apply (temp_path_listed _ msg fid).
  - intros reply total i fid name acc w1.
    destruct (upload_attachment_step env reply total i fid name acc w1)
      as (acc' & tail & w' & -> & Hstep & _).
    simpl. rewrite (step_files _ _ _ _ _ _ Hstep).
    intros [_ Hnot]%elem_of_difference. apply Hnot. by apply elem_of_singleton.
  - intros r p name w1. destruct (decide (p ∈ files w1)) as [Hin|Hout].
    + destruct (upload_file_step r p name w1 Hin) as (res & tail & w' & -> & Hstep & _).
      simpl. rewrite (step_files _ _ _ _ _ _ Hstep).
      intros [_ Hnot]%elem_of_difference. apply Hnot. by apply elem_of_singleton.
    + by rewrite upload_file_missing.
Qed.

Lemma temp_file_removed_witness :
  (∀ msg fid name,
     msg ∈ pair_messages → select_file msg = Some (fid, name) →
     temp_path_of name ∉ files (process_media_group env_flaky pair_context pair_world).2) ∧
  (∀ reply total i fid name acc w1,
     temp_path_of name ∉ files (upload_attachment env_flaky reply total i fid name acc w1).2) ∧
  (∀ r p name w1, p ∉ files (upload_file r p name w1).2).
Proof.
  apply (temp_file_removed env_flaky pair_context pair_world {["G2" := pair_record]} pair_record).
  - reflexivity.
  - reflexivity.
Defined.

(** ** Failed uploads *)

Lemma successes_le env k n : (successes env k n ≤ n)%nat.
Proof.
  revert k. induction n as [|n IH]; intros k; simpl; [lia|].
  specialize (IH (S k)). destruct (fetch_ok (fetch env k)); lia.
Qed.

Lemma successes_none env k n :
  (∀ j, (j < n)%nat → fetch_ok (fetch env (k + j)) = false) → successes env k n = 0%nat.
Proof.
  revert k. induction n as [|n IH]; intros k Hall; simpl; [done|].
  rewrite <- (Nat.add_0_r k) at 1. rewrite Hall by lia.
  rewrite IH; [done|]. intros j Hj. replace (S k + j)%nat with (k + S j)%nat by lia.
  apply Hall. lia.
Qed.


Lemma file_messages_all msgs :
  Forall (λ msg, is_Some (select_file msg)) msgs →
  length (file_messages msgs) = length msgs.
Proof.
  induction 1 as [|msg msgs [f Hf] _ IH]; [done|].
  rewrite file_messages_cons, Hf. simpl. by rewrite IH.
Qed.

Lemma last_finalized orig text tail closing_effects e :
  last closing_effects = Some e →
  last ([ReplyText orig text] ++ tail ++ closing_effects) = Some e.
Proof.
  intros Hlast. apply last_Some in Hlast as [l' ->].
  rewrite !app_assoc. apply last_snoc.
Qed.

(** C2. When a group is finalized and every upload that is attempted fails
    (which includes a group where no message carries a file the code
    recognizes, so that nothing is attempted), no note request is made and
    the last thing done is to edit the status reply to the text
    "保存失败：所有文件都上传失败。". *)
Theorem all_uploads_failed env context w table data :
  media_groups w = Some table →
  table !! ctx_media_group_id context = Some data →
  messages data ≠ [] →
  (∀ j, (j < length (file_messages (messages data)))%nat →
        fetch_ok (fetch env (attempts w + j)) = false) →
  let reply := {| in_reply_to := ctx_original_message context; sent_at := length (trace w) |} in
  ∃ new,
    trace (process_media_group env context w).2 = trace w ++ new ∧
    note_writes new = [] ∧
    head new = Some (ReplyText (ctx_original_message context) (header_text (messages data))) ∧
    last new = Some (EditText reply "保存失败：所有文件都上传失败。").
Proof.
  intros Htable Hdata Hne Hfail reply.
  destruct (process_media_group_trace env context w table data Htable Hdata Hne)
    as (atts & tail & w' & -> & Htrace & Hfacts & _).
  assert (atts = []) as ->.
  { apply length_zero_iff_nil. rewrite (loop_collected _ _ _ _ _ _ Hfacts).
    by apply successes_none. }
  eexists. split; [exact Htrace|]. split; [|split].
  - by rewrite note_writes_finalized by apply Hfacts.
  - done.
  - by apply last_finalized.
Qed.

Lemma all_uploads_failed_witness :
  ∃ new,
    trace (process_media_group env_down pair_context pair_world).2 = trace pair_world ++ new ∧
    note_writes new = [] ∧
    head new = Some (ReplyText (ctx_original_message pair_context) (header_text pair_messages)) ∧
    last new = Some (EditText {| in_reply_to := ctx_original_message pair_context;
                                 sent_at := length (trace pair_world) |}
                       "保存失败：所有文件都上传失败。").
Proof.
  apply (all_uploads_failed env_down pair_context pair_world {["G2" := pair_record]} pair_record).
  - reflexivity.
  - reflexivity.
  - discriminate.
  - intros j _. reflexivity.
Defined.

Lemma last_closing env k reply content d atts :
  last (closing env k reply content (d :: atts)) =
  Some (EditText reply (if note_ok (note_reply env k) then "已保存"
                        else "保存失败：笔记创建失败。")).
Proof. simpl. by destruct (note_ok _). Qed.

(** C3, counterexample. Two photos; the first upload fails (503), the second
    succeeds, and the note backend answers 500: one of two uploads failed,
    the note request is made with one attachment, and the status the user
    is left with is "保存失败：笔记创建失败。", not a success. *)
Lemma partial_failure_note_fails_counterexample :
  let w' := (process_media_group env_flaky pair_context pair_world).2 in
  let reply := {| in_reply_to := ctx_original_message pair_context; sent_at := 0 |} in
  Forall (λ msg, is_Some (select_file msg)) pair_messages ∧
  failures env_flaky (attempts pair_world) (length pair_messages) = 1%nat ∧
  length <$> (snd <$> note_writes (trace w')) = [1%nat] ∧
  last (trace w') = Some (EditText reply "保存失败：笔记创建失败。") ∧
  last (trace w') ≠ Some (EditText reply "已保存").
Proof.
  split; [|split; [|split; [|split]]].
  - repeat constructor; by eexists.
  - reflexivity.
  - vm_compute. reflexivity.
  - vm_compute. reflexivity.
  - vm_compute. discriminate.
Qed.

(** C3, amended. When a group of [N] messages that all carry a file is
    finalized and [M] of the uploads fail, with [0 < M < N]: every message is
    attempted, in order (a failure does not stop the loop); [M] errors are
    logged, one for each failure; one note request is made, with [N - M]
    attachments; and the last edit of the status reply is "已保存" when the
    note request succeeds, "保存失败：笔记创建失败。" when it fails. *)
Theorem partial_failure env context w table data :
  media_groups w = Some table →
  table !! ctx_media_group_id context = Some data →
  Forall (λ msg, is_Some (select_file msg)) (messages data) →
  (0 < failures env (attempts w) (length (messages data)) < length (messages data))%nat →
  let msgs := messages data in
  let N := length msgs in
  let M := failures env (attempts w) N in
  let reply := {| in_reply_to := ctx_original_message context; sent_at := length (trace w) |} in
  ∃ new atts,
    trace (process_media_group env context w).2 = trace w ++ new ∧
    get_files new = (file_messages msgs).*1 ∧
    length (get_files new) = N ∧
    length (failure_logs new) = M ∧
    note_writes new = [(determine_caption msgs, atts)] ∧
    length atts = (N - M)%nat ∧
    last new = Some (EditText reply (if note_ok (note_reply env (notes w)) then "已保存"
                                     else "保存失败：笔记创建失败。")).
Proof.
  intros Htable Hdata Hfiles HM msgs N M reply.
  assert (messages data ≠ []) as Hne.
  { intros Hnil. rewrite Hnil in HM. simpl in HM. lia. }
  destruct (process_media_group_trace env context w table data Htable Hdata Hne)
    as (atts & tail & w' & -> & Htrace & Hfacts & _).
  fold msgs reply in Htrace, Hfacts. destruct Hfacts.
  pose proof (file_messages_all _ Hfiles) as Hlen. fold msgs N in Hlen.
  rewrite Hlen in *. unfold failures in HM. fold msgs N in HM.
  assert (length atts = (N - M)%nat) as Hatts.
  { unfold M, failures. pose proof (successes_le env (attempts w) N). lia. }
  destruct atts as [|d atts]; [simpl in *; lia|].
  eexists _, (d :: atts). split; [exact Htrace|].
  split; [|split; [|split; [|split; [|split]]]].
  - rewrite !get_files_app, loop_get_files0. simpl. destruct (note_ok _); simpl;
      by rewrite app_nil_r.
  - rewrite !get_files_app, loop_get_files0. simpl. destruct (note_ok _); simpl;
      by rewrite app_nil_r, length_fmap.
  - rewrite !failure_logs_app. simpl. unfold M, failures.
    destruct (note_ok _); simpl; rewrite app_nil_r; lia.
  - by rewrite note_writes_finalized.
  - done.
  - apply last_finalized, last_closing.
Qed.

Lemma partial_failure_witness :
  ∃ new atts,
    trace (process_media_group env_partial pair_context pair_world).2
    = trace pair_world ++ new ∧
    get_files new = (file_messages pair_messages).*1 ∧
    length (get_files new) = 2%nat ∧
    length (failure_logs new) = 1%nat ∧
    note_writes new = [(determine_caption pair_messages, atts)] ∧
    length atts = 1%nat ∧
    last new = Some (EditText {| in_reply_to := ctx_original_message pair_context;
                                 sent_at := 0 |} "已保存").
Proof.
  apply (partial_failure env_partial pair_context pair_world {["G2" := pair_record]} pair_record).
  - reflexivity.
  - reflexivity.
  - repeat constructor; by eexists.
  - vm_compute. lia.
Defined.

(** ** A group from the first message to the note *)

Lemma burst_app t l1 l2 : burst t (l1 ++ l2) → burst t l1.
Proof.
  revert t. induction l1 as [|ev l1 IH]; intros t; simpl; [done|].
  intros [Htime Hrest]. split; [done|]. by apply IH.
Qed.

Lemma GroupBurst_prefix gid w0 t1 first rest1 rest2 :
  GroupBurst gid w0 t1 first (rest1 ++ rest2) → GroupBurst gid w0 t1 first rest1.
Proof.
  intros []. split; try done.
  - by apply Forall_app in gb_rest0 as [? _].
  - by apply burst_app in gb_times0.
Qed.

Lemma puppy_burst : GroupBurst "G1" initial 0 puppy_first puppy_rest.
Proof.
  split; try done; try (by repeat constructor);
    simpl; unfold MEDIA_GROUP_COLLECTION_DELAY; lia.
Qed.





Lemma no_fetch_in_closing env k reply content atts :
  get_files (closing env k reply content atts) = [] ∧
  downloads (closing env k reply content atts) = [] ∧
  uploads (closing env k reply content atts) = [].
Proof. destruct atts; [done|]. simpl. by destruct (note_ok _). Qed.

Lemma fetch_order_finalized env k k' orig text reply content tail atts fs n :
  LoopFacts env reply k' fs tail n →
  let new := [ReplyText orig text] ++ tail ++ closing env k reply content atts in
  get_files new = fs.*1 ∧
  downloads new = expected_downloads env k' fs ∧
  uploads new = expected_uploads env k' fs.
Proof.
  intros [] new. subst new.
  destruct (no_fetch_in_closing env k reply content atts) as (Hc1 & Hc2 & Hc3).
  rewrite !get_files_app, !downloads_app, !uploads_app, Hc1, Hc2, Hc3.
  simpl. by rewrite !app_nil_r.
Qed.

Lemma expected_sublist env fs :
  ∀ k,
    expected_downloads env k fs `sublist_of` ((λ f, temp_path_of f.2) <$> fs) ∧
    expected_uploads env k fs `sublist_of` ((λ f, (temp_path_of f.2, f.2)) <$> fs).
Proof.
  induction fs as [|f fs IH]; intros k; [done|].
  destruct (IH (S k)) as [Hd Hu]. simpl. split.
  - destruct (fetch env k); simpl; by constructor.
  - destruct (fetch env k); simpl; by constructor.
Qed.

Lemma expected_all_fetched env fs :
  ∀ k,
    (∀ j, (k ≤ j < k + length fs)%nat → ∃ r, fetch env j = Fetched r) →
    expected_downloads env k fs = (λ f, temp_path_of f.2) <$> fs ∧
    expected_uploads env k fs = (λ f, (temp_path_of f.2, f.2)) <$> fs.
Proof.
  induction fs as [|f fs IH]; intros k Hall; [done|].
  destruct (IH (S k)) as [Hd Hu].
  { intros j Hj. apply Hall. simpl. lia. }
  destruct (Hall k) as [r Hr]; [simpl; lia|].
  simpl. by rewrite Hr, Hd, Hu.
Qed.

(** C9, counterexample. A photo of the group "single_7" is stored; a photo
    without group whose message id is 7 follows: the record of "single_7"
    does not grow, it is replaced, and the first photo is no longer in it.
    The same happens to a photo without group when another one with the
    same message id follows. *)
Lemma record_overwritten_counterexample :
  (let w1 := (handle_file odd_grouped initial).2 in
   let w2 := (handle_file odd_single w1).2 in
   messages <$> (media_groups w1 ≫= (.!! "single_7")) = Some [odd_grouped] ∧
   messages <$> (media_groups w2 ≫= (.!! "single_7")) = Some [odd_single] ∧
   ¬ [odd_grouped] `prefix_of` [odd_single]) ∧
  (let other := photo_message 21 None None "s9" in
   let w1 := (handle_file single_a initial).2 in
   let w2 := (handle_file other w1).2 in
   messages <$> (media_groups w1 ≫= (.!! "single_21")) = Some [single_a] ∧
   messages <$> (media_groups w2 ≫= (.!! "single_21")) = Some [other] ∧
   ¬ [single_a] `prefix_of` [other]).
Proof.
  split.
  - split; [vm_compute; reflexivity|]. split; [vm_compute; reflexivity|].
    intros [l Hl]. discriminate Hl.
  - split; [vm_compute; reflexivity|]. split; [vm_compute; reflexivity|].
    intros [l Hl]. discriminate Hl.
Qed.

(** C9, amended. [handle_file] puts a message that carries a group id
    behind the messages the record of that id already holds, in every
    world, and starts the record with it when there is none; a message
    without group is stored alone under its synthetic id, whatever was
    stored there. In a burst of one group the record holds, after every
    message, the messages received so far in the order of their arrival.
    When a group is finalized, [get_file] is called once for each message of
    the record that carries a file, in the order of the record; a download
    is made for exactly those that [get_file] handed out and an upload for
    exactly those whose download succeeded, in that same order: when
    Telegram hands out every file, the downloads and the uploads are those
    of all the file messages of the record, in its order. *)
Theorem arrival_order env gid w0 t1 first rest T :
  GroupBurst gid w0 t1 first rest →
  last_time t1 rest + MEDIA_GROUP_COLLECTION_DELAY ≤ T →
  let msgs := first :: rest.*2 in
  let w2 := advance env T (run env ((t1, first) :: rest) w0) in
  (∀ msg g w, media_group_id msg = Some g → g ≠ "" →
     messages <$> (media_groups (handle_file msg w).2 ≫= (.!! g))
     = Some (default [] (messages <$> (media_groups w ≫= (.!! g))) ++ [msg])) ∧
  (∀ msg w, str_truthy (media_group_id msg) = false →
     messages <$> (media_groups (handle_file msg w).2
                     ≫= (.!! virtual_group_id (message_id msg)))
     = Some [msg]) ∧
  (∀ rest1 rest2, rest = rest1 ++ rest2 →
     media_groups (run env ((t1, first) :: rest1) w0) ≫= (.!! gid) =
     Some {| messages := first :: rest1.*2; original_message := first |}) ∧
  (∃ new,
     trace w2 = trace w0 ++ new ∧
     get_files new = (file_messages msgs).*1 ∧
     downloads new = expected_downloads env (attempts w0) (file_messages msgs) ∧
     uploads new = expected_uploads env (attempts w0) (file_messages msgs)) ∧
  (∀ context w table data,
     media_groups w = Some table →
     table !! ctx_media_group_id context = Some data →
     messages data ≠ [] →
     ∃ new,
       trace (process_media_group env context w).2 = trace w ++ new ∧
       get_files new = (file_messages (messages data)).*1 ∧
       downloads new = expected_downloads env (attempts w) (file_messages (messages data)) ∧
       uploads new = expected_uploads env (attempts w) (file_messages (messages data))) ∧
  (∀ k fs,
     expected_downloads env k fs `sublist_of` ((λ f, temp_path_of f.2) <$> fs) ∧
     expected_uploads env k fs `sublist_of` ((λ f, (temp_path_of f.2, f.2)) <$> fs) ∧
     ((∀ j, (k ≤ j < k + length fs)%nat → ∃ r, fetch env j = Fetched r) →
      expected_downloads env k fs = (λ f, temp_path_of f.2) <$> fs ∧
      expected_uploads env k fs = (λ f, (temp_path_of f.2, f.2)) <$> fs)).
Proof.
  intros Hburst Hdue msgs w2. split; [|split; [|split; [|split; [|split]]]].
  - intros msg g w Hg Hreal.
    destruct (handle_file_grouped msg g w Hg Hreal) as (w' & -> & Hgroups & _).
    simpl. rewrite Hgroups. simpl. rewrite lookup_insert_eq.
    destruct (media_groups w) as [table|]; simpl; [|done].
    by destruct (table !! g).
  - intros msg w Hnone.
    destruct (handle_file_single msg w Hnone) as (w' & -> & Hgroups & _).
    simpl. rewrite Hgroups. simpl. by rewrite lookup_insert_eq.
  - intros rest1 rest2 ->. apply GroupBurst_prefix in Hburst.
    destruct (group_burst_run env gid w0 t1 first rest1 Hburst) as [Hgroups _ _ _].
    rewrite Hgroups. simpl. apply lookup_insert_eq.
  - destruct (group_burst_finalized env gid w0 t1 first rest T Hburst Hdue)
      as (atts & tail & [Htrace Hfacts _ _ _]).
    eexists. split; [exact Htrace|].
    by apply (fetch_order_finalized _ _ _ _ _ _ _ _ _ _ _ Hfacts).
  - intros context w table data Htable Hdata Hne.
    destruct (process_media_group_trace env context w table data Htable Hdata Hne)
      as (atts & tail & w' & -> & Htrace & Hfacts & _).
    eexists. split; [exact Htrace|].
    by apply (fetch_order_finalized _ _ _ _ _ _ _ _ _ _ _ Hfacts).
  - intros k fs. destruct (expected_sublist env fs k) as [Hd Hu].
    split; [done|]. split; [done|]. apply expected_all_fetched.
Qed.

Lemma arrival_order_witness :
  let msgs := puppy_first :: puppy_rest.*2 in
  let w2 := advance env_flaky 1900 (run env_flaky ((0, puppy_first) :: puppy_rest) initial) in
  (∀ msg g w, media_group_id msg = Some g → g ≠ "" →
     messages <$> (media_groups (handle_file msg w).2 ≫= (.!! g))
     = Some (default [] (messages <$> (media_groups w ≫= (.!! g))) ++ [msg])) ∧
  (∀ msg w, str_truthy (media_group_id msg) = false →
     messages <$> (media_groups (handle_file msg w).2
                     ≫= (.!! virtual_group_id (message_id msg)))
     = Some [msg]) ∧
  (∀ rest1 rest2, puppy_rest = rest1 ++ rest2 →
     media_groups (run env_flaky ((0, puppy_first) :: rest1) initial) ≫= (.!! "G1") =
     Some {| messages := puppy_first :: rest1.*2; original_message := puppy_first |}) ∧
  (∃ new,
     trace w2 = trace initial ++ new ∧
     get_files new = ["p1"; "p2"; "p3"] ∧
     downloads new = ["./p1.jpg"; "./p2.jpg"; "./p3.jpg"] ∧
     uploads new = [("./p1.jpg", Some "p1.jpg"); ("./p2.jpg", Some "p2.jpg");
                    ("./p3.jpg", Some "p3.jpg")]) ∧
  (∀ context w table data,
     media_groups w = Some table →
     table !! ctx_media_group_id context = Some data →
     messages data ≠ [] →
     ∃ new,
       trace (process_media_group env_flaky context w).2 = trace w ++ new ∧
       get_files new = (file_messages (messages data)).*1 ∧
       downloads new
       = expected_downloads env_flaky (attempts w) (file_messages (messages data)) ∧
       uploads new
       = expected_uploads env_flaky (attempts w) (file_messages (messages data))) ∧
  (∀ k fs,
     expected_downloads env_flaky k fs `sublist_of` ((λ f, temp_path_of f.2) <$> fs) ∧
     expected_uploads env_flaky k fs `sublist_of` ((λ f, (temp_path_of f.2, f.2)) <$> fs) ∧
     ((∀ j, (k ≤ j < k + length fs)%nat → ∃ r, fetch env_flaky j = Fetched r) →
      expected_downloads env_flaky k fs = (λ f, temp_path_of f.2) <$> fs ∧
      expected_uploads env_flaky k fs = (λ f, (temp_path_of f.2, f.2)) <$> fs)).
Proof.
  apply (arrival_order env_flaky "G1" initial 0 puppy_first puppy_rest 1900).
  - exact puppy_burst.
  - vm_compute. discriminate.
Defined.

(** ** The status reply *)


Lemma edits_of reply (l : list Effect) :
  Forall (λ e, ∃ text, e = EditText reply text) l → ∃ texts, l = EditText reply <$> texts.
Proof.
  induction 1 as [|e l [text ->] _ [texts ->]].
  - by exists [].
  - by exists (text :: texts).
Qed.

Lemma user_visible_closing env k reply content atts :
  ∃ texts, user_visible (closing env k reply content atts) = EditText reply <$> texts
           ∧ texts ≠ [].
Proof.
  destruct atts as [|d atts]; simpl.
  - by exists ["保存失败：所有文件都上传失败。"].
  - destruct (note_ok _); by eexists [_; _].
Qed.

Lemma replied_to_app tr1 tr2 : replied_to (tr1 ++ tr2) = replied_to tr1 ++ replied_to tr2.
Proof. apply omap_app. Qed.


Lemma replied_to_visible tr : replied_to tr = replied_to (user_visible tr).
Proof.
  induction tr as [|e tr IH]; [done|].
  destruct e; simpl; try done. unfold replied_to in *. simpl. by rewrite IH.
Qed.

Lemma replied_to_edits reply texts : replied_to (EditText reply <$> texts) = [].
Proof. by induction texts. Qed.

Lemma replied_to_finalized env k orig text reply content tail atts :
  Forall (λ e, ∃ text, e = EditText reply text) (user_visible tail) →
  replied_to ([ReplyText orig text] ++ tail ++ closing env k reply content atts) = [orig].
Proof.
  intros [texts Htexts]%edits_of.
  destruct (user_visible_closing env k reply content atts) as (texts' & Hclosing & _).
  rewrite !replied_to_app, (replied_to_visible tail), Htexts, replied_to_edits.
  rewrite (replied_to_visible (closing _ _ _ _ _)), Hclosing, replied_to_edits. done.
Qed.




(** ** Timers *)

Lemma filter_enqueue_False (P : Job → Prop) `{!∀ j, Decision (P j)} job q :
  ¬ P job → filter P (enqueue job q) = filter P q.
Proof.
  intros Hjob. induction q as [|j q IH]; simpl.
  - by rewrite filter_cons_False.
  - case_bool_decide.
    + by rewrite (filter_cons_False _ job).
    + by rewrite !filter_cons, IH.
Qed.

Lemma filter_enqueue_fresh (P : Job → Prop) `{!∀ j, Decision (P j)} job q :
  P job → filter P q = [] → filter P (enqueue job q) = [job].
Proof.
  intros Hjob Hnone. apply Permutation_singleton_r.
  by rewrite enqueue_Permutation, filter_cons_True, Hnone.
Qed.

Lemma length_filter_suffix (P : Job → Prop) `{!∀ j, Decision (P j)} (q1 q2 : list Job) :
  q1 `suffix_of` q2 → (length (filter P q1) ≤ length (filter P q2))%nat.
Proof. intros [k ->]. rewrite filter_app, length_app. lia. Qed.

Lemma virtual_group_id_prefix mid : String.prefix "single_" (virtual_group_id mid) = true.
Proof.
  unfold virtual_group_id. generalize (pretty mid). intros s. by destruct s.
Qed.

Lemma virtual_group_id_unnamed mid : virtual_group_id mid ≠ callback_name.
Proof. unfold virtual_group_id, callback_name. simpl. discriminate. Qed.

Lemma names_agree_suffix q1 q2 : q1 `suffix_of` q2 → names_agree q2 → names_agree q1.
Proof.
  intros [k ->] Hq j Hj. apply Hq, elem_of_app. by right.
Qed.

Lemma names_agree_enqueue job q :
  names_agree q →
  (job_name job = ctx_media_group_id (job_context job) ∨
   (job_name job = callback_name ∧
    String.prefix "single_" (ctx_media_group_id (job_context job)) = true)) →
  names_agree (enqueue job q).
Proof.
  intros Hq Hjob j Hj. rewrite enqueue_Permutation in Hj.
  apply elem_of_cons in Hj as [->|Hj]; auto.
Qed.

Lemma queue_ok_suffix q1 q2 : q1 `suffix_of` q2 → queue_ok q2 → queue_ok q1.
Proof.
  intros Hsuffix [Hnames Hone]. split; [by apply (names_agree_suffix q1 q2)|].
  intros gid. etrans; [by apply length_filter_suffix|]. apply Hone.
Qed.

Lemma filter_none {A} (P : A → Prop) `{!∀ x, Decision (P x)} (l : list A) :
  (∀ x, x ∈ l → ¬ P x) → filter P l = [].
Proof.
  induction l as [|a l IH]; intros Hnone; [done|].
  rewrite filter_cons_False by (apply Hnone; by left).
  apply IH. intros x Hx. apply Hnone. by right.
Qed.

Lemma length_filter_filter {A} (P Q : A → Prop)
    `{!∀ x, Decision (P x), !∀ x, Decision (Q x)} (l : list A) :
  (length (filter P (filter Q l)) ≤ length (filter P l))%nat.
Proof.
  rewrite list_filter_filter.
  rewrite (list_filter_iff _ (λ a, Q a ∧ P a)) by (intros; tauto).
  rewrite <- list_filter_filter. apply length_filter.
Qed.

Lemma queue_ok_handle_file msg w :
  queue_ok (job_queue w) → queue_ok (job_queue (handle_file msg w).2).
Proof.
  intros [Hnames Hone].
  destruct (str_truthy (media_group_id msg)) eqn:Htruthy.
  - destruct (media_group_id msg) as [[|c g]|] eqn:Hgid; try done.
    destruct (handle_file_grouped msg (String c g) w Hgid) as (w' & -> & _ & Hq & _); [done|].
    simpl. rewrite Hq. split.
    + apply names_agree_enqueue; [|by left].
      intros j [_ Hj]%list_elem_of_filter. by apply Hnames.
    + intros gid. unfold group_timers.
      destruct (decide (gid = String c g)) as [->|Hne].
      * rewrite filter_enqueue_fresh; [done|done|].
        apply filter_none. intros j [Hj _]%list_elem_of_filter. tauto.
      * rewrite filter_enqueue_False by (simpl; intros [? _]; congruence).
        etrans; [apply length_filter_filter|]. apply Hone.
  - destruct (handle_file_single msg w Htruthy) as (w' & -> & _ & Hq & _).
    simpl. rewrite Hq. split.
    + apply names_agree_enqueue; [done|]. right. split; [done|].
      apply virtual_group_id_prefix.
    + intros gid. unfold group_timers. rewrite filter_enqueue_False; [apply Hone|].
      simpl. intros [<- Hv]. by apply virtual_group_id_unnamed in Hv.
Qed.

Lemma queue_ok_advance env t w : queue_ok (job_queue w) → queue_ok (job_queue (advance env t w)).
Proof.
  intros Hok. unfold advance. simpl.
  by apply (queue_ok_suffix _ (job_queue w)); [apply fire_due_queue|].
Qed.

Lemma queue_ok_run env events :
  ∀ w, queue_ok (job_queue w) → queue_ok (job_queue (run env events w)).
Proof.
  induction events as [|ev events IH]; intros w Hok; [done|].
  simpl. apply IH. unfold deliver. by apply queue_ok_handle_file, queue_ok_advance.
Qed.

Lemma queue_ok_initial : queue_ok (job_queue initial).
Proof.
  split; [|intros gid; simpl; lia]. intros j Hj. by apply elem_of_nil in Hj.
Qed.

Lemma timers_for_group_timers gid q :
  names_agree q → String.prefix "single_" gid = false →
  timers_for gid q = group_timers gid q.
Proof.
  intros Hnames Hreal. apply filter_agree. intros j Hj. split; [|tauto].
  intros Hctx. split; [|done].
  destruct (Hnames j Hj) as [->|[_ Hprefix]]; [done|]. congruence.
Qed.

(** C6, counterexample. A photo of the group "single_7" and a photo
    without group whose message id is 7 are handled one after the other:
    the second cancels nothing, and the queue holds two jobs bound to the
    group id "single_7". Two photos without group that have the same
    message id leave two jobs bound to the same id as well. *)
Lemma two_timers_counterexample :
  (let w := (handle_file odd_single (handle_file odd_grouped initial).2).2 in
   media_group_id odd_grouped = Some "single_7" ∧
   length (timers_for "single_7" (job_queue w)) = 2%nat ∧
   ¬ (∀ gid, (length (timers_for gid (job_queue w)) ≤ 1)%nat)) ∧
  (let w := (handle_file (photo_message 21 None None "s9")
               (handle_file single_a initial).2).2 in
   length (timers_for "single_21" (job_queue w)) = 2%nat).
Proof.
  split; [|vm_compute; reflexivity].
  split; [reflexivity|].
  assert (length (timers_for "single_7"
            (job_queue (handle_file odd_single (handle_file odd_grouped initial).2).2))
          = 2%nat) as Htwo by (vm_compute; reflexivity).
  split; [exact Htwo|].
  intros Hone. specialize (Hone "single_7"). rewrite Htwo in Hone. lia.
Qed.

(** C6, amended. At every moment of a run, after a message has been
    handled and after time has passed, the queue holds at most one job that
    [handle_file] scheduled for a given group id, and at most one job bound
    to a group id that is not of the form of a synthetic one. Handling a
    message of group [gid] removes every job named [gid] (none, when there is
    none) and then schedules one: afterwards the only job of that name is
    the new one, due a full quiet window later, and the jobs of other names
    are the ones that were there. Handling a message without group removes
    no job and schedules one. *)
Theorem one_timer_per_group env events T :
  let q1 := job_queue (run env events initial) in
  let q2 := job_queue (advance env T (run env events initial)) in
  (∀ gid, (length (group_timers gid q1) ≤ 1)%nat ∧ (length (group_timers gid q2) ≤ 1)%nat) ∧
  (∀ gid, String.prefix "single_" gid = false →
     (length (timers_for gid q1) ≤ 1)%nat ∧ (length (timers_for gid q2) ≤ 1)%nat) ∧
  (∀ msg gid w, media_group_id msg = Some gid → gid ≠ "" →
     let q' := job_queue (handle_file msg w).2 in
     ∃ original,
       filter (λ j, job_name j = gid) q' = [group_job gid original (clock w)] ∧
       filter (λ j, job_name j ≠ gid) q' = filter (λ j, job_name j ≠ gid) (job_queue w)) ∧
  (∀ msg w, str_truthy (media_group_id msg) = false →
     job_queue (handle_file msg w).2 ≡ₚ single_job msg (clock w) :: job_queue w).
Proof.
  intros q1 q2.
  pose proof (queue_ok_run env events initial queue_ok_initial) as Hok1.
  pose proof (queue_ok_advance env T _ Hok1) as Hok2.
  fold q1 in Hok1. fold q2 in Hok2. destruct Hok1 as [Hn1 H1], Hok2 as [Hn2 H2].
  split; [|split; [|split]].
  - intros gid. split; [apply H1|apply H2].
  - intros gid Hreal. rewrite !timers_for_group_timers by done.
    split; [apply H1|apply H2].
  - intros msg gid w Hgid Hreal.
    destruct (handle_file_grouped msg gid w Hgid Hreal) as (w' & -> & _ & Hq & _).
    simpl. rewrite Hq. eexists. split.
    + apply filter_enqueue_fresh; [done|].
      apply filter_none. intros j [Hj _]%list_elem_of_filter. tauto.
    + rewrite filter_enqueue_False by (simpl; tauto).
      rewrite list_filter_filter. apply list_filter_iff. tauto.
  - intros msg w Hnone.
    destruct (handle_file_single msg w Hnone) as (w' & -> & _ & Hq & _).
    simpl. rewrite Hq. apply enqueue_Permutation.
Qed.

(** ** Messages without group *)

Lemma virtual_group_id_inj a b : virtual_group_id a = virtual_group_id b → a = b.
Proof.
  unfold virtual_group_id. intros Heq. simpl in Heq.
  injection Heq as Heq. by apply (inj pretty).
Qed.

Lemma virtual_group_id_real mid gid :
  String.prefix "single_" gid = false → virtual_group_id mid ≠ gid.
Proof. intros Hreal <-. by rewrite virtual_group_id_prefix in Hreal. Qed.

(** A finalization of a group whose record is in the table. *)
Lemma process_media_group_counts env context w table data :
  media_groups w = Some table →
  table !! ctx_media_group_id context = Some data →
  messages data ≠ [] →
  let msgs := messages data in
  let orig := ctx_original_message context in
  let reply := {| in_reply_to := orig; sent_at := length (trace w) |} in
  ∃ atts tail w',
    process_media_group env context w = (Returned (), w') ∧
    trace w' =
      trace w ++ [ReplyText orig (header_text msgs)] ++ tail
      ++ closing env (notes w) reply (determine_caption msgs) atts ∧
    LoopFacts env reply (attempts w) (file_messages msgs) tail (length atts) ∧
    media_groups w' = Some (delete (ctx_media_group_id context) table) ∧
    attempts w' = (attempts w + length (file_messages msgs))%nat ∧
    notes w' = (notes w + length (note_of msgs atts))%nat.
Proof.
  intros Htable Hdata Hne msgs orig reply. subst msgs orig reply. cbn zeta.
  rewrite (process_media_group_present env _ w table data Htable Hdata Hne).
  destruct (finalize_messages_step env (ctx_original_message context) (messages data)
              (set_media_groups (Some (delete (ctx_media_group_id context) table)) w))
    as (atts & tail & w' & -> & [Hg Hq Hc Hf Ht Ha Hn] & Hfacts).
  exists atts, tail, w'. simpl in *. repeat (split; [done|]). rewrite Hn. by destruct atts.
Qed.

(** C7, counterexample. A photo of a group whose id is "single_7" and a
    photo without group whose message id is 7 arrive together: the second
    takes the key of the first, the table holds one record with the second
    photo only, and the first photo is never fetched. And two photos without
    group arrive together while Telegram hands out no file: no note request
    is made for either. *)
Lemma synthetic_id_collision_counterexample :
  media_group_id odd_grouped = Some (virtual_group_id (message_id odd_single)) ∧
  (let w1 := run env_up [(0, odd_grouped); (0, odd_single)] initial in
   messages <$> (media_groups w1 ≫= (.!! "single_7")) = Some [odd_single] ∧
   size <$> media_groups w1 = Some 1%nat ∧
   get_files (trace (advance env_up 86400000 w1)) = ["s7"]) ∧
  message_id single_a ≠ message_id single_b ∧
  note_writes (trace (advance env_down 86400000
                        (run env_down [(0, single_a); (0, single_b)] initial))) = [].
Proof.
  split; [|split; [|split]].
  - vm_compute. reflexivity.
  - vm_compute. done.
  - vm_compute. discriminate.
  - vm_compute. reflexivity.
Qed.

(** Two finalizations, one after the other, of two records of one message. *)
Lemma two_finalizations env w ma mb (va vb : string) table :
  media_groups w = Some table →
  va ≠ vb →
  table !! va = Some (new_record ma) →
  table !! vb = Some (new_record mb) →
  let ca := {| ctx_media_group_id := va; ctx_original_message := ma |} in
  let cb := {| ctx_media_group_id := vb; ctx_original_message := mb |} in
  ∃ new attsa attsb,
    trace (process_media_group env cb (process_media_group env ca w).2).2 = trace w ++ new ∧
    replied_to new = [ma; mb] ∧
    note_writes new = note_of [ma] attsa ++ note_of [mb] attsb ∧
    length attsa = successes env (attempts w) (length (file_messages [ma])) ∧
    length attsb = successes env (attempts w + length (file_messages [ma]))
                     (length (file_messages [mb])).
Proof.
  intros Htable Hne Ha Hb ca cb.
  destruct (process_media_group_counts env ca w table (new_record ma) Htable Ha)
    as (attsa & taila & wa & -> & Hta & Hfa & Hga & Haa & Hna); [done|].
  cbn [ca ctx_original_message ctx_media_group_id messages new_record snd] in *.
  destruct (process_media_group_counts env cb wa _ (new_record mb) Hga)
    as (attsb & tailb & wb & -> & Htb & Hfb & Hgb & Hab & Hnb).
  { simpl. by rewrite lookup_delete_ne. }
  { done. }
  cbn [cb ctx_original_message ctx_media_group_id messages new_record snd] in *.
  rewrite Hta in Htb, Hfb.
  eexists _, attsa, attsb. split.
  { rewrite Htb, <- app_assoc. reflexivity. }
  split; [|split; [|split]].
  - rewrite replied_to_app, !replied_to_finalized; [done|apply Hfb|apply Hfa].
  - rewrite note_writes_app, !note_writes_finalized; [done|apply Hfb|apply Hfa].
  - by rewrite (loop_collected _ _ _ _ _ _ Hfa).
  - rewrite (loop_collected _ _ _ _ _ _ Hfb). by rewrite Haa.
Qed.

(** C7, amended. The synthetic group id of a message without group is the
    text "single_" followed by its message id in decimal: two message ids
    give the same text only when they are equal, and the text differs from
    every group id that does not start with "single_". [handle_file] stores
    the message alone under that id, whatever was stored there, and
    schedules [process_media_group] for it 0.1 s later, a shorter delay
    than the 1.5 s of a group. When two such messages with different
    message ids are handled one after the other at the same time, in any
    world, the table holds a record for each and the queue a job for each,
    and nothing has been shown. When the two finalizations then run one
    after the other, in either order, each message is answered by its own
    reply, and each finalization makes its own note request when its
    upload succeeded, and none otherwise. *)
Theorem single_file_messages env w0 m1 m2 :
  str_truthy (media_group_id m1) = false →
  str_truthy (media_group_id m2) = false →
  message_id m1 ≠ message_id m2 →
  let v1 := virtual_group_id (message_id m1) in
  let v2 := virtual_group_id (message_id m2) in
  let c1 := {| ctx_media_group_id := v1; ctx_original_message := m1 |} in
  let c2 := {| ctx_media_group_id := v2; ctx_original_message := m2 |} in
  let w1 := (handle_file m2 (handle_file m1 w0).2).2 in
  (∀ a b, virtual_group_id a = virtual_group_id b → a = b) ∧
  (∀ mid gid, String.prefix "single_" gid = false → virtual_group_id mid ≠ gid) ∧
  (∀ msg w, str_truthy (media_group_id msg) = false →
     let w' := (handle_file msg w).2 in
     media_groups w' ≫= (.!! virtual_group_id (message_id msg)) = Some (new_record msg) ∧
     job_queue w' = enqueue (single_job msg (clock w)) (job_queue w) ∧
     job_due (single_job msg (clock w)) = clock w + SINGLE_FILE_DELAY) ∧
  SINGLE_FILE_DELAY < MEDIA_GROUP_COLLECTION_DELAY ∧
  v1 ≠ v2 ∧
  media_groups w1 ≫= (.!! v1) = Some (new_record m1) ∧
  media_groups w1 ≫= (.!! v2) = Some (new_record m2) ∧
  job_queue w1 ≡ₚ single_job m1 (clock w0) :: single_job m2 (clock w0) :: job_queue w0 ∧
  job_context (single_job m1 (clock w0)) = c1 ∧
  job_context (single_job m2 (clock w0)) = c2 ∧
  Silent w0 w1 ∧
  (∃ new atts1 atts2,
     trace (process_media_group env c2 (process_media_group env c1 w1).2).2
     = trace w0 ++ new ∧
     replied_to new = [m1; m2] ∧
     note_writes new = note_of [m1] atts1 ++ note_of [m2] atts2 ∧
     length atts1 = successes env (attempts w0) (length (file_messages [m1])) ∧
     length atts2 = successes env (attempts w0 + length (file_messages [m1]))
                      (length (file_messages [m2]))) ∧
  (∃ new atts1 atts2,
     trace (process_media_group env c1 (process_media_group env c2 w1).2).2
     = trace w0 ++ new ∧
     replied_to new = [m2; m1] ∧
     note_writes new = note_of [m2] atts2 ++ note_of [m1] atts1 ∧
     length atts2 = successes env (attempts w0) (length (file_messages [m2])) ∧
     length atts1 = successes env (attempts w0 + length (file_messages [m2]))
                      (length (file_messages [m1]))).
Proof.
  intros H1 H2 Hids v1 v2 c1 c2 w1.
  assert (v1 ≠ v2) as Hv by (intros Heq; by apply virtual_group_id_inj in Heq).
  destruct (handle_file_single m1 w0 H1) as (wa & Hrun1 & Hga & Hqa & Hca & Hsa).
  destruct (handle_file_single m2 wa H2) as (wb & Hrun2 & Hgb & Hqb & Hcb & Hsb).
  assert (w1 = wb) as Hw1 by (unfold w1; rewrite Hrun1; simpl; by rewrite Hrun2).
  rewrite Hga in Hgb. simpl in Hgb. rewrite Hca in Hqb. fold v1 v2 in Hgb.
  pose proof (Silent_trans _ _ _ Hsa Hsb) as [Hsf Hst Hsat Hsn].
  assert (wb.(media_groups) ≫= (.!! v1) = Some (new_record m1)) as Hr1.
  { rewrite Hgb. simpl. by rewrite lookup_insert_ne, lookup_insert_eq. }
  assert (wb.(media_groups) ≫= (.!! v2) = Some (new_record m2)) as Hr2.
  { rewrite Hgb. simpl. by rewrite lookup_insert_eq. }
  rewrite Hw1.
  split; [apply virtual_group_id_inj|]. split; [apply virtual_group_id_real|].
  split.
  { intros msg w Hmsg. destruct (handle_file_single msg w Hmsg) as (w' & -> & Hg & Hq & _).
    simpl. rewrite Hg. simpl. by rewrite lookup_insert_eq. }
  split; [done|]. split; [done|]. split; [done|]. split; [done|].
  split.
  { rewrite Hqb, Hqa, !enqueue_Permutation. apply Permutation_swap. }
  split; [done|]. split; [done|]. split; [done|].
  rewrite Hgb in Hr1, Hr2. simpl in Hr1, Hr2.
  split.
  - destruct (two_finalizations env wb m1 m2 v1 v2 _ Hgb Hv Hr1 Hr2)
      as (new & atts1 & atts2 & Htrace & Hrest).
    exists new, atts1, atts2. rewrite <- Hst, <- Hsat. by split.
  - destruct (two_finalizations env wb m2 m1 v2 v1 _ Hgb (not_eq_sym Hv) Hr2 Hr1)
      as (new & atts2 & atts1 & Htrace & Hrest).
    exists new, atts1, atts2. rewrite <- Hst, <- Hsat. by split.
Qed.

Lemma single_file_messages_witness :
  let v1 := virtual_group_id (message_id single_a) in
  let v2 := virtual_group_id (message_id single_b) in
  let c1 := {| ctx_media_group_id := v1; ctx_original_message := single_a |} in
  let c2 := {| ctx_media_group_id := v2; ctx_original_message := single_b |} in
  let w1 := (handle_file single_b (handle_file single_a initial).2).2 in
  (∀ a b, virtual_group_id a = virtual_group_id b → a = b) ∧
  (∀ mid gid, String.prefix "single_" gid = false → virtual_group_id mid ≠ gid) ∧
  (∀ msg w, str_truthy (media_group_id msg) = false →
     let w' := (handle_file msg w).2 in
     media_groups w' ≫= (.!! virtual_group_id (message_id msg)) = Some (new_record msg) ∧
     job_queue w' = enqueue (single_job msg (clock w)) (job_queue w) ∧
     job_due (single_job msg (clock w)) = clock w + SINGLE_FILE_DELAY) ∧
  SINGLE_FILE_DELAY < MEDIA_GROUP_COLLECTION_DELAY ∧
  v1 ≠ v2 ∧
  media_groups w1 ≫= (.!! v1) = Some (new_record single_a) ∧
  media_groups w1 ≫= (.!! v2) = Some (new_record single_b) ∧
  job_queue w1 ≡ₚ single_job single_a 0 :: single_job single_b 0 :: [] ∧
  job_context (single_job single_a 0) = c1 ∧
  job_context (single_job single_b 0) = c2 ∧
  Silent initial w1 ∧
  (∃ new atts1 atts2,
     trace (process_media_group env_up c2 (process_media_group env_up c1 w1).2).2
     = trace initial ++ new ∧
     replied_to new = [single_a; single_b] ∧
     note_writes new = note_of [single_a] atts1 ++ note_of [single_b] atts2 ∧
     length atts1 = 1%nat ∧
     length atts2 = 1%nat) ∧
  (∃ new atts1 atts2,
     trace (process_media_group env_up c1 (process_media_group env_up c2 w1).2).2
     = trace initial ++ new ∧
     replied_to new = [single_b; single_a] ∧
     note_writes new = note_of [single_b] atts2 ++ note_of [single_a] atts1 ∧
     length atts2 = 1%nat ∧
     length atts1 = 1%nat).
Proof.
  apply (single_file_messages env_up initial single_a single_b).
  - reflexivity.
  - reflexivity.
  - vm_compute. discriminate.
Defined.

(** * More of the code *)

(** ** What [upload_file] returns and raises *)

Lemma upload_request_result r p name w :
  p ∈ files w → (upload_request r p name w).1 = upload_outcome r.
Proof.
  intros Hin. unfold upload_request; py_unfold. rewrite decide_True by done.
  destruct r as [|status_code body]; simpl; [done|].
  destruct (bool_decide (400 ≤ status_code < 600)); simpl; [done|].
  destruct body as [[|b|n|s|l|d]|]; simpl; try done.
  - by destruct (is_substring "filePath" s), (is_substring "fileName" s).
  - by destruct (existsb (is_JStr "filePath") l), (existsb (is_JStr "fileName") l).
  - by destruct (bool_decide (is_Some (d !! "filePath"))),
         (bool_decide (is_Some (d !! "fileName"))).
Qed.

(** X1. [upload_file] raises [OSError] when the file is not there; with the
    file it gives [None] when no response arrives, for a status 400 to 599,
    for a body that is not JSON and for a JSON object, list or string
    lacking one of the two keys; it raises [TypeError] for a JSON null,
    boolean or number and [AttributeError] for a list or string holding both
    key names; and it returns the object otherwise. No [RequestException]
    leaves it. *)
Theorem upload_file_outcome r p name w :
  (upload_file r p name w).1 =
    (if decide (p ∈ files w) then upload_outcome r else Raised OSError) ∧
  (upload_file r p name w).1 ≠ Raised RequestException.
Proof.
  assert ((upload_file r p name w).1 =
          (if decide (p ∈ files w) then upload_outcome r else Raised OSError)) as Heq.
  { destruct (decide (p ∈ files w)) as [Hin|Hout].
    - rewrite <- (upload_request_result r p name w Hin).
      unfold upload_file, try_finally.
      destruct (upload_request r p name w) as [res w1].
      by destruct (remove_if_exists_step p w1) as (w2 & -> & _).
    - by rewrite upload_file_missing. }
  split; [done|]. rewrite Heq. destruct (decide (p ∈ files w)); [|done].
  destruct r as [|status_code body]; simpl; [done|].
  destruct (bool_decide _); [done|].
  destruct body as [[|b|n|s|l|d]|]; simpl; try done.
  - by destruct (_ && _).
  - by destruct (_ && _).
  - by destruct (_ && _).
Qed.

(** ** The descriptor of an upload *)

(** X2. When the file of an attachment is fetched and the backend answers
    with an object that [upload_file] accepts, the loop body returns the
    attachments it was given followed by one descriptor, whose name, path,
    size and type are the values of [fileName], [filePath], [size] and
    [type] of that object, [None] for a key the object lacks. *)
Theorem descriptor_of_upload env reply total i fid name acc w status_code d :
  fetch env (attempts w) = Fetched (UploadResponse status_code (Some (JObj d))) →
  accepts (UploadResponse status_code (Some (JObj d))) = true →
  (upload_attachment env reply total i fid name acc w).1 =
  Returned (acc ++ [descriptor_from d]).
Proof.
  intros Hfetch Hacc.
  unfold upload_attachment, edit_text, bot_get_file, tg_download, upload_reply.
  py_unfold. simpl. rewrite !Hfetch. simpl. rewrite Hfetch. simpl.
  match goal with |- context [upload_file ?r ?p name ?w1] =>
    destruct (upload_file_step r p name w1) as (res & tail & w2 & -> & _ & Hobs) end.
  { simpl. apply elem_of_union_l. by apply elem_of_singleton. }
  destruct Hobs as (_ & _ & _ & _ & _ & _ & Hres).
  simpl in Hres. rewrite Hfetch in Hres.
  destruct res as [[v|]|e]; try congruence.
  destruct Hres as (status_code' & d' & Heq & -> & _). simplify_eq.
  rewrite (accepts_truthy _ _ _ eq_refl Hacc). unfold descriptor_of; py_unfold. done.
Qed.

Lemma descriptor_of_upload_witness :
  (upload_attachment env_up {| in_reply_to := single_a; sent_at := 0 |} 1 0 "s1"
     (Some "s1.jpg") [] initial).1 =
  Returned ([] ++ [descriptor_from (stored_full "a.jpg" "/api/file/a.jpg")]).
Proof.
  apply (descriptor_of_upload env_up _ 1 0 "s1" (Some "s1.jpg") [] initial 200
           (stored_full "a.jpg" "/api/file/a.jpg")).
  - reflexivity.
  - reflexivity.
Defined.

(** ** [create_note] and [handle_text] *)

(** X3. [create_note] makes one request, with the content and the
    attachments it is given, and never raises: it returns [True] exactly
    when a response arrives whose status is not in 400..599, and [False]
    when none arrives or the status is in that range. Nothing else of the
    world changes. *)
Theorem create_note_result env content atts w :
  ∃ w' l,
    create_note env content atts w = (Returned (note_ok (note_reply env (notes w))), w') ∧
    trace w' = trace w ++ [PostNote content atts; Log l] ∧
    (note_ok (note_reply env (notes w)) = true ↔
     ∃ status_code, note_reply env (notes w) = NoteResponse status_code
                    ∧ ¬ (400 ≤ status_code < 600)) ∧
    media_groups w' = media_groups w ∧ job_queue w' = job_queue w ∧ files w' = files w.
Proof.
  destruct (create_note_step env content atts w) as (w' & Heq & [Hg Hq Hc Hf Ht Ha Hn]).
  exists w', (if note_ok (note_reply env (notes w)) then InfoNoteCreated
              else ErrorNoteFailed RequestException).
  split; [exact Heq|]. split; [|split; [|split; [done|split; [done|]]]].
  - rewrite Ht. by destruct (note_ok _).
  - destruct (note_reply env (notes w)) as [|status_code]; simpl.
    + split; [done|]. by intros (? & ? & _).
    + rewrite negb_true_iff, bool_decide_eq_false. split.
      * intros Hstatus. by exists status_code.
      * intros (? & [= <-] & Hstatus). done.
  - by rewrite Hf, difference_empty_L.
Qed.

Lemma handle_text_step env msg text w :
  let reply := {| in_reply_to := msg; sent_at := length (trace w) |} in
  ∃ w',
    handle_text env msg text w = (Returned (), w') ∧
    Step w w'
      ([ReplyText msg "收到，正在保存..."; PostNote text []]
       ++ (if note_ok (note_reply env (notes w))
           then [Log InfoNoteCreated; EditText reply "已保存"]
           else [Log (ErrorNoteFailed RequestException); EditText reply "保存失败"]))
      ∅ 0 1.
Proof.
  intros reply. unfold handle_text, reply_text, edit_text.
  unfold mbind at 1, Py_bind at 1. fold reply.
  unfold mbind at 1, Py_bind at 1.
  destruct (create_note_step env text (payload_attachments None)
              (emit (ReplyText msg "收到，正在保存...") w)) as (w1 & -> & Hnote).
  cbn [notes emit payload_attachments] in *.
  pose proof (Step_trans _ _ _ _ _ _ _ _ _ _ _
                (Step_emit (ReplyText msg "收到，正在保存...") w) Hnote) as Hst.
  destruct (note_ok (note_reply env (notes w))) eqn:Hok; py_unfold.
  all: eexists; (split; [reflexivity|]).
  all: eapply Step_eq;
    [ exact (Step_trans _ _ _ _ _ _ _ _ _ _ _ Hst (Step_emit _ w1))
    | rewrite <- ?app_assoc; reflexivity
    | by rewrite ?union_empty_l_L
    | simpl; lia
    | simpl; lia ].
Qed.

(** X4. A text message is answered at once: [handle_text] sends one reply
    to the message, makes one note request whose content is the text and
    whose attachments are empty, and edits the reply to "已保存" when the
    request succeeds and to "保存失败" when it fails. The group table, the
    job queue and the files are left as they are. *)
Theorem text_message_note env msg text w :
  let reply := {| in_reply_to := msg; sent_at := length (trace w) |} in
  ∃ w' l,
    handle_text env msg text w = (Returned (), w') ∧
    trace w' =
      trace w ++ [ReplyText msg "收到，正在保存..."; PostNote text []; Log l;
                  EditText reply (if note_ok (note_reply env (notes w)) then "已保存"
                                  else "保存失败")] ∧
    media_groups w' = media_groups w ∧ job_queue w' = job_queue w ∧ files w' = files w.
Proof.
  intros reply.
  destruct (handle_text_step env msg text w) as (w' & Heq & [Hg Hq Hc Hf Ht Ha Hn]).
  exists w', (if note_ok (note_reply env (notes w)) then InfoNoteCreated
              else ErrorNoteFailed RequestException).
  split; [exact Heq|]. split; [|split; [done|split; [done|]]].
  - rewrite Ht. fold reply. by destruct (note_ok _).
  - by rewrite Hf, difference_empty_L.
Qed.

(** ** The dispatcher *)

Lemma handle_file_returns msg w : (handle_file msg w).1 = Returned ().
Proof.
  destruct (str_truthy (media_group_id msg)) eqn:Htruthy.
  - destruct (media_group_id msg) as [[|c gid]|] eqn:Hgid; try done.
    by destruct (handle_file_grouped msg (String c gid) w Hgid) as (w' & -> & _).
  - by destruct (handle_file_single msg w Htruthy) as (w' & -> & _).
Qed.

Lemma try_except_returned {A} catches (body : Py A) handler w a :
  (body w).1 = Returned a → try_except catches body handler w = body w.
Proof. unfold try_except. destruct (body w) as [[?|?] ?]; by intros [= ->]. Qed.

(** What the dispatcher does with an update, by the handler that takes it
    and by [update.message]. *)
Lemma dispatch_run env handlers u w :
  dispatch env handlers u w =
  match find (λ h, handler_filter h u) handlers with
  | None => (Returned (), w)
  | Some h =>
      match update_message u with
      | None => (Returned (), emit (Log (WarningUpdateError AttributeError)) w)
      | Some msg =>
          match handler_callback h with
          | HandleFile => handle_file msg w
          | HandleText => handle_text env msg (default "" (text u)) w
          end
      end
  end.
Proof.
  unfold dispatch, handle_file_update, handle_text_update.
  destruct (find _ handlers) as [h|]; [|done].
  destruct (update_message u) as [msg|].
  - destruct (handler_callback h).
    + apply (try_except_returned _ _ _ _ ()), handle_file_returns.
    + apply (try_except_returned _ _ _ _ ()).
      by destruct (handle_text_step env msg (default "" (text u)) w) as (w' & -> & _).
  - by destruct (handler_callback h).
Qed.

Lemma dispatch_cases env handlers u w :
  dispatch env handlers u w = (Returned (), w) ∨
  dispatch env handlers u w = (Returned (), emit (Log (WarningUpdateError AttributeError)) w) ∨
  dispatch env handlers u w = handle_file (effective_message u) w ∨
  dispatch env handlers u w = handle_text env (effective_message u) (default "" (text u)) w.
Proof.
  rewrite dispatch_run. destruct (find _ handlers) as [h|]; [|by left].
  unfold update_message. destruct (kind u); auto.
  destruct (handler_callback h); auto.
Qed.

(** ** The handlers of [main] *)

Lemma media_filter_select_file u :
  all_media_filters u = true ↔ is_Some (select_file (effective_message u)).
Proof.
  unfold all_media_filters, select_file.
  destruct (document (effective_message u)) as [doc|]; simpl.
  { split; [by eexists|done]. }
  destruct (photo (effective_message u)) as [|p ps] eqn:Hphoto; simpl.
  - destruct (video (effective_message u)) as [v|]; simpl.
    { split; [by eexists|done]. }
    destruct (audio (effective_message u)) as [a|]; simpl.
    + split; [by eexists|done].
    + split; [done|]. by intros [? ?].
  - split; [|done]. intros _.
    destruct (last (p :: ps)) eqn:Hlast; [by eexists|].
    by apply last_None in Hlast.
Qed.

(** X6. With the handlers that [main] registers, an update whose sender is
    not the authorized user, or that is a command, or that carries neither a
    file nor a text, changes nothing. An update of the authorized user that
    is not a command and carries a file or a text is taken by a handler. If
    it is not a new message (an edited message), [update.message] is [None]:
    the handler raises [AttributeError] before doing anything, the error
    handler logs a warning, and nothing else changes. If it is a new message
    it goes to [handle_file] when it carries a document, a photo, a video or
    an audio, also when it has a text, and to [handle_text] when it carries
    none of these and has a text. The media filter takes exactly the
    messages in which [process_media_group] finds a file. *)
Theorem dispatch_routes env cfg u w :
  let d := dispatch env (handlers_of cfg) u w in
  (from_user u ≠ Some (AUTHORIZED_CHAT_ID cfg) → d = (Returned (), w)) ∧
  (is_command u = true → d = (Returned (), w)) ∧
  (all_media_filters u = false → filter_text u = false → d = (Returned (), w)) ∧
  (from_user u = Some (AUTHORIZED_CHAT_ID cfg) → is_command u = false →
   all_media_filters u || filter_text u = true →
     (kind u ≠ NewMessage →
        d = (Returned (), emit (Log (WarningUpdateError AttributeError)) w)) ∧
     (kind u = NewMessage → all_media_filters u = true →
        d = handle_file (effective_message u) w) ∧
     (kind u = NewMessage → all_media_filters u = false →
        ∃ t, text u = Some t ∧ t ≠ "" ∧ d = handle_text env (effective_message u) t w)) ∧
  (all_media_filters u = true ↔ is_Some (select_file (effective_message u))).
Proof.
  intros d. subst d. rewrite dispatch_run. unfold handlers_of, filter_user, update_message.
  simpl. split; [|split; [|split; [|split]]].
  - intros Huser. by rewrite bool_decide_false.
  - intros ->. by rewrite !andb_false_r.
  - intros -> ->. by rewrite !andb_false_r.
  - intros Huser -> Htaken. rewrite bool_decide_true by done. simpl.
    rewrite !andb_true_r. split; [|split].
    + intros Hkind.
      destruct (all_media_filters u); simpl in *; [by destruct (kind u)|].
      rewrite Htaken. by destruct (kind u).
    + by intros -> ->.
    + intros -> Hmedia. rewrite Hmedia in *. simpl in *. rewrite Htaken.
      unfold filter_text in Htaken.
      destruct (text u) as [[|c t]|]; try done. by eexists.
  - apply media_filter_select_file.
Qed.

(** ** Groups do not touch one another *)

Lemma table_of_process_media_group env context w :
  table_of (process_media_group env context w).2 =
  delete (ctx_media_group_id context) (table_of w).
Proof.
  destruct (process_media_group_step env context w)
    as (tail & gone & a & n & w' & -> & Hstep).
  unfold table_of. simpl. rewrite (step_groups _ _ _ _ _ _ Hstep). simpl.
  destruct (media_groups w); simpl; [done|]. by rewrite delete_empty.
Qed.

Lemma handle_file_effect msg w :
  ∃ w',
    handle_file msg w = (Returned (), w') ∧
    table_of w' = <[group_key msg := stored_record msg w]> (table_of w) ∧
    job_queue w' = enqueue (scheduled_job msg w) (kept_jobs msg (job_queue w)) ∧
    clock w' = clock w ∧
    Silent w w'.
Proof.
  unfold scheduled_job, kept_jobs, stored_record, group_key, table_of.
  destruct (str_truthy (media_group_id msg)) eqn:Htruthy.
  - destruct (media_group_id msg) as [[|c gid]|] eqn:Hgid; try done.
    destruct (handle_file_grouped msg (String c gid) w Hgid)
      as (w' & -> & Hg & Hq & Hc & Hs); [done|].
    exists w'. simpl. rewrite Hg, Hq. simpl. done.
  - destruct (handle_file_single msg w Htruthy) as (w' & -> & Hg & Hq & Hc & Hs).
    exists w'. simpl. by rewrite Hg, Hq.
Qed.

Lemma scheduled_job_context msg w :
  ctx_media_group_id (job_context (scheduled_job msg w)) = group_key msg.
Proof.
  unfold scheduled_job, group_key. by destruct (str_truthy (media_group_id msg)).
Qed.

(** X8. Finalizing a group leaves the record of every other group, the job
    queue and the clock as they are; handling a file message leaves the
    record of every other key as it is and removes no job of another name;
    handling a text message changes neither table nor queue. *)
Theorem other_groups_untouched env gid :
  (∀ context w, ctx_media_group_id context ≠ gid →
     table_of (process_media_group env context w).2 !! gid = table_of w !! gid) ∧
  (∀ context w,
     job_queue (process_media_group env context w).2 = job_queue w ∧
     clock (process_media_group env context w).2 = clock w) ∧
  (∀ msg w, group_key msg ≠ gid →
     table_of (handle_file msg w).2 !! gid = table_of w !! gid) ∧
  (∀ msg w job, job ∈ job_queue w → job_name job ≠ group_key msg →
     job ∈ job_queue (handle_file msg w).2) ∧
  (∀ msg text w,
     table_of (handle_text env msg text w).2 = table_of w ∧
     job_queue (handle_text env msg text w).2 = job_queue w).
Proof.
  split; [|split; [|split; [|split]]].
  - intros context w Hne. rewrite table_of_process_media_group. by apply lookup_delete_ne.
  - intros context w.
    destruct (process_media_group_step env context w)
      as (tail & gone & a & n & w' & -> & [Hg Hq Hc _ _ _ _]). simpl. by rewrite Hq, Hc.
  - intros msg w Hne.
    destruct (handle_file_effect msg w) as (w' & -> & Ht & _). simpl.
    rewrite Ht. by apply lookup_insert_ne.
  - intros msg w job Hjob Hname.
    destruct (handle_file_effect msg w) as (w' & -> & _ & Hq & _). simpl.
    rewrite Hq, enqueue_Permutation. right. unfold kept_jobs.
    destruct (str_truthy (media_group_id msg)); [|done].
    by apply list_elem_of_filter.
  - intros msg text w.
    destruct (handle_text_step env msg text w) as (w' & -> & [Hg Hq _ _ _ _ _]).
    unfold table_of. simpl. by rewrite Hg, Hq.
Qed.

(** ** Invariants of a run *)

Lemma fire_due_ind env t (P : World → Prop) :
  (∀ job rest w, job_queue w = job :: rest → P w → P (run_job env job rest w)) →
  ∀ q w, job_queue w = q → P w → P (fire_due env t q w).
Proof.
  intros Hjob q. induction q as [|job rest IH]; intros w Hq HP; simpl; [done|].
  case_bool_decide; [|done].
  apply IH; [apply run_job_queue|]. by apply Hjob.
Qed.

Lemma advance_ind env (P : World → Prop) :
  (∀ job rest w, job_queue w = job :: rest → P w → P (run_job env job rest w)) →
  (∀ t w, P w → P (set_clock (t `max` clock w) w)) →
  ∀ t w, P w → P (advance env t w).
Proof.
  intros Hjob Hclock t w HP. unfold advance. apply Hclock.
  by apply (fire_due_ind env t P Hjob).
Qed.

Lemma run_updates_ind env handlers (P : World → Prop) (Q : Update → Prop) events :
  (∀ t w, P w → P (advance env t w)) →
  (∀ u w, Q u → P w → P (dispatch env handlers u w).2) →
  Forall (λ ev, Q ev.2) events →
  ∀ w, P w → P (run_updates env handlers events w).
Proof.
  intros Hadv Hdisp. induction 1 as [|ev events Hev _ IH]; intros w HP; [done|].
  simpl. apply IH. unfold deliver_update. by apply Hdisp, Hadv.
Qed.

Lemma run_job_trace_table env job rest w :
  let w_in := set_job_queue rest (set_clock (job_due job `max` clock w) w) in
  run_job env job rest w = (process_media_group env (job_context job) w_in).2 ∧
  trace w_in = trace w ∧ table_of w_in = table_of w ∧ files w_in = files w.
Proof. done. Qed.

(** *** Files *)

Lemma files_process_media_group env context w :
  files (process_media_group env context w).2 ⊆ files w.
Proof.
  destruct (process_media_group_step env context w)
    as (tail & gone & a & n & w' & -> & Hstep).
  simpl. rewrite (step_files _ _ _ _ _ _ Hstep). simpl.
  intros p [Hp _]%elem_of_difference. done.
Qed.

Lemma files_dispatch env handlers u w : files (dispatch env handlers u w).2 = files w.
Proof.
  destruct (dispatch_cases env handlers u w) as [->|[->|[->| ->]]]; [done|done| |].
  - by destruct (handle_file_effect (effective_message u) w) as (w' & -> & _ & _ & _ & []).
  - destruct (handle_text_step env (effective_message u) (default "" (text u)) w)
      as (w' & -> & [_ _ _ Hf _ _ _]).
    simpl. by rewrite Hf, difference_empty_L.
Qed.

(** X9. No local file is left behind by a run: whatever updates arrive and
    whatever the environment answers, the files that exist afterwards
    existed before. *)
Theorem no_file_left_behind env handlers events T w0 :
  files (run_updates env handlers events w0) ⊆ files w0 ∧
  files (advance env T (run_updates env handlers events w0)) ⊆ files w0.
Proof.
  assert (∀ t w, files w ⊆ files w0 → files (advance env t w) ⊆ files w0) as Hadv.
  { apply (advance_ind env (λ w, files w ⊆ files w0)); [|done].
    intros job rest w _ Hw. etrans; [|exact Hw].
    apply (files_process_media_group env (job_context job)
             (set_job_queue rest (set_clock (job_due job `max` clock w) w))). }
  assert (files (run_updates env handlers events w0) ⊆ files w0) as Hrun.
  { apply (run_updates_ind env handlers (λ w, files w ⊆ files w0) (λ _, True)); try done.
    - intros u w _ Hw. by rewrite files_dispatch.
    - by apply Forall_forall. }
  split; [done|]. by apply Hadv.
Qed.

(** *** Notes *)

Lemma notes_and_records_process_media_group env context w :
  (notes_and_records (process_media_group env context w).2 ≤ notes_and_records w)%nat.
Proof.
  unfold notes_and_records. rewrite table_of_process_media_group.
  destruct (table_of w !! ctx_media_group_id context) as [data|] eqn:Hdata.
  - assert (∃ table, media_groups w = Some table ∧
                     table !! ctx_media_group_id context = Some data) as (table & Ht & Hd).
    { unfold table_of in Hdata. destruct (media_groups w) as [table|]; [by exists table|].
      simpl in Hdata. by rewrite lookup_empty in Hdata. }
    rewrite map_size_delete_Some by done.
    assert (size (table_of w) ≠ 0%nat) as Hsize.
    { apply map_size_non_empty_iff. intros Hempty. by rewrite Hempty, lookup_empty in Hdata. }
    destruct (decide (messages data = [])) as [Hnil|Hne].
    + assert (trace (process_media_group env context w).2 = trace w) as ->; [|lia].
      unfold process_media_group, pop_media_group; py_unfold. by rewrite Ht, Hd, Hnil.
    + destruct (process_media_group_trace env context w table data Ht Hd Hne)
        as (atts & tail & w' & -> & Htrace & Hfacts & _).
      simpl. rewrite Htrace, note_writes_app, length_app.
      rewrite note_writes_finalized by apply Hfacts. destruct atts; simpl; lia.
  - rewrite process_media_group_absent.
    + simpl. by rewrite delete_id.
    + unfold table_of in Hdata. destruct (media_groups w); simpl; done.
Qed.

Lemma notes_and_records_dispatch env handlers u w :
  (notes_and_records (dispatch env handlers u w).2 ≤ S (notes_and_records w))%nat.
Proof.
  unfold notes_and_records.
  destruct (dispatch_cases env handlers u w) as [->|[->|[->| ->]]]; [simpl; lia| | |].
  - unfold table_of. simpl. rewrite note_writes_app, length_app. simpl. lia.
  - destruct (handle_file_effect (effective_message u) w) as (w' & -> & Ht & _ & _ & []).
    simpl. rewrite Ht, silent_trace0, map_size_insert.
    destruct (table_of w !! _); simpl; lia.
  - destruct (handle_text_step env (effective_message u) (default "" (text u)) w)
      as (w' & -> & [Hg _ _ _ Htrace _ _]).
    unfold table_of. simpl. rewrite Hg, Htrace, !note_writes_app, !length_app.
    destruct (note_ok _); simpl; lia.
Qed.

(** X10. The bot never writes more notes than it received messages: after
    any run, the number of note requests made, plus the number of groups
    still waiting in the table, is at most what it was at the start plus the
    number of updates delivered. *)
Theorem notes_bounded_by_updates env handlers events T w0 :
  (notes_and_records (run_updates env handlers events w0)
   ≤ notes_and_records w0 + length events)%nat ∧
  (notes_and_records (advance env T (run_updates env handlers events w0))
   ≤ notes_and_records w0 + length events)%nat ∧
  (length (note_writes (trace (advance env T (run_updates env handlers events initial))))
   ≤ length events)%nat.
Proof.
  assert (∀ k t w, (notes_and_records w ≤ k)%nat →
                   (notes_and_records (advance env t w) ≤ k)%nat) as Hadv.
  { intros k. apply (advance_ind env (λ w, (notes_and_records w ≤ k)%nat)); [|done].
    intros job rest w _ Hw. etrans; [|exact Hw].
    apply (notes_and_records_process_media_group env (job_context job)
             (set_job_queue rest (set_clock (job_due job `max` clock w) w))). }
  assert (∀ w, (notes_and_records (run_updates env handlers events w)
                ≤ notes_and_records w + length events)%nat) as Hrun.
  { induction events as [|ev events IH]; intros w; simpl; [lia|].
    etrans; [apply IH|]. unfold deliver_update.
    pose proof (notes_and_records_dispatch env handlers ev.2 (advance env ev.1 w)).
    pose proof (Hadv _ ev.1 w (le_n _)). lia. }
  split; [apply Hrun|]. split; [apply Hadv, Hrun|].
  pose proof (Hadv _ T _ (Hrun initial)) as Hinit.
  assert (notes_and_records initial = 0%nat) as Hzero by reflexivity.
  rewrite Hzero in Hinit. unfold notes_and_records in Hinit. lia.
Qed.

(** *** Timers *)

Lemma table_of_run_job env job rest w :
  table_of (run_job env job rest w) =
  delete (ctx_media_group_id (job_context job)) (table_of w).
Proof. unfold run_job. by rewrite table_of_process_media_group. Qed.

Lemma clock_run_job env job rest w :
  clock (run_job env job rest w) = job_due job `max` clock w.
Proof.
  unfold run_job.
  destruct (process_media_group_step env (job_context job)
              (set_job_queue rest (set_clock (job_due job `max` clock w) w)))
    as (tail & gone & a & n & w' & -> & Hstep).
  simpl. by rewrite (step_clock _ _ _ _ _ _ Hstep).
Qed.

Lemma timers_ok_run_job env job rest w :
  job_queue w = job :: rest → timers_ok w → timers_ok (run_job env job rest w).
Proof.
  intros Hq (Hnames & Htimer & Hdue). rewrite Hq in *.
  unfold timers_ok, every_record_has_timer.
  rewrite run_job_queue, table_of_run_job, clock_run_job. split; [|split].
  - apply (names_agree_suffix _ (job :: rest)); [by apply suffix_cons_r|done].
  - intros gid [data [Hne Hdata]%lookup_delete_Some].
    destruct (Htimer gid) as (j & Hj & Hctx); [by eexists|].
    rewrite Hq in Hj. apply elem_of_cons in Hj as [->|Hj]; [done|]. by exists j.
  - apply Forall_cons in Hdue as [_ Hdue].
    eapply Forall_impl; [exact Hdue|]. simpl. intros j Hj. lia.
Qed.

Lemma timers_ok_clock t w : timers_ok w → timers_ok (set_clock (t `max` clock w) w).
Proof.
  intros (Hnames & Htimer & Hdue). split; [done|]. split; [done|]. simpl.
  eapply Forall_impl; [exact Hdue|]. simpl. intros j Hj. lia.
Qed.

Lemma timers_ok_advance env t w : timers_ok w → timers_ok (advance env t w).
Proof.
  apply (advance_ind env timers_ok).
  - apply timers_ok_run_job.
  - intros t' w'. apply timers_ok_clock.
Qed.

Lemma timers_ok_handle_file msg w :
  media_group_id msg ≠ Some callback_name →
  timers_ok w → timers_ok (handle_file msg w).2.
Proof.
  intros Hname (Hnames & Htimer & Hdue).
  destruct (handle_file_effect msg w) as (w' & -> & Ht & Hq & Hc & _). simpl.
  unfold timers_ok, every_record_has_timer. rewrite Ht, Hq, Hc. split; [|split].
  - apply names_agree_enqueue.
    + intros j Hj. apply Hnames. unfold kept_jobs in Hj.
      destruct (str_truthy (media_group_id msg)); [|done].
      by apply list_elem_of_filter in Hj as [_ Hj].
    + unfold scheduled_job, group_key.
      destruct (str_truthy (media_group_id msg)); simpl; [by left|right].
      split; [done|]. apply virtual_group_id_prefix.
  - intros gid Hgid. setoid_rewrite enqueue_Permutation.
    destruct (decide (gid = group_key msg)) as [->|Hne].
    { exists (scheduled_job msg w). split; [left|apply scheduled_job_context]. }
    rewrite lookup_insert_ne in Hgid by done.
    destruct (Htimer gid Hgid) as (j & Hj & Hctx). exists j. split; [right|done].
    unfold kept_jobs. destruct (str_truthy (media_group_id msg)) eqn:Htruthy; [|done].
    apply list_elem_of_filter. split; [|done].
    destruct (Hnames j Hj) as [Hn|[Hn _]]; [congruence|].
    rewrite Hn. unfold group_key. rewrite Htruthy.
    destruct (media_group_id msg) as [g|]; [|done]. simpl. congruence.
  - rewrite enqueue_Permutation. apply Forall_cons. split.
    + unfold scheduled_job, group_job, single_job, MEDIA_GROUP_COLLECTION_DELAY,
        SINGLE_FILE_DELAY.
      destruct (str_truthy (media_group_id msg)); simpl; lia.
    + unfold kept_jobs. destruct (str_truthy (media_group_id msg)); [|done].
      apply Forall_forall. intros j [_ Hj]%list_elem_of_filter.
      by apply (proj1 (Forall_forall _ _) Hdue).
Qed.

Lemma timers_ok_dispatch env handlers u w :
  media_group_id (effective_message u) ≠ Some callback_name →
  timers_ok w → timers_ok (dispatch env handlers u w).2.
Proof.
  intros Hname Hok.
  destruct (dispatch_cases env handlers u w) as [->|[->|[->| ->]]]; [done|done| |].
  - by apply timers_ok_handle_file.
  - destruct (handle_text_step env (effective_message u) (default "" (text u)) w)
      as (w' & -> & [Hg Hq Hc _ _ _ _]).
    destruct Hok as (Hnames & Htimer & Hdue).
    unfold timers_ok, every_record_has_timer, table_of in *. simpl.
    by rewrite Hg, Hq, Hc.
Qed.

Lemma timers_ok_initial : timers_ok initial.
Proof.
  split; [|split].
  - intros j Hj. by apply elem_of_nil in Hj.
  - intros gid [data Hdata]. change (table_of initial) with (∅ : gmap string GroupRecord) in Hdata. by rewrite lookup_empty in Hdata.
  - constructor.
Qed.

Lemma fire_due_all env t q :
  Forall (λ job, job_due job ≤ t) q →
  ∀ w, job_queue w = q → job_queue (fire_due env t q w) = [].
Proof.
  induction 1 as [|job rest Hjob _ IH]; intros w Hq; simpl; [done|].
  rewrite bool_decide_true by done. apply IH, run_job_queue.
Qed.

(** X11. No group is forgotten. In a run from the start in which no message
    belongs to a group whose id is the name [run_once] gives to an unnamed
    job, every record of the table has a job in the queue that will finalize
    it, and no job is due later than the quiet window from now: once that
    window has passed without a further update, the table and the queue are
    empty. *)
Theorem every_group_is_finalized env handlers events T :
  no_group_named_callback events →
  timers_ok (run_updates env handlers events initial) ∧
  (clock (run_updates env handlers events initial) + MEDIA_GROUP_COLLECTION_DELAY ≤ T →
   table_of (advance env T (run_updates env handlers events initial)) = ∅ ∧
   job_queue (advance env T (run_updates env handlers events initial)) = []).
Proof.
  intros Hevents.
  assert (timers_ok (run_updates env handlers events initial)) as Hok.
  { apply (run_updates_ind env handlers timers_ok
             (λ u, media_group_id (effective_message u) ≠ Some callback_name)).
    - intros t w. apply timers_ok_advance.
    - intros u w. apply timers_ok_dispatch.
    - exact Hevents.
    - apply timers_ok_initial. }
  split; [done|]. intros HT.
  assert (job_queue (advance env T (run_updates env handlers events initial)) = []) as Hq.
  { unfold advance. simpl. apply fire_due_all; [|done].
    destruct Hok as (_ & _ & Hdue). eapply Forall_impl; [exact Hdue|].
    simpl. intros j Hj. lia. }
  split; [|done].
  destruct (timers_ok_advance env T _ Hok) as (_ & Htimer & _).
  apply map_empty. intros gid.
  destruct (table_of _ !! gid) as [data|] eqn:Hdata; [|done].
  destruct (Htimer gid) as (j & Hj & _); [by eexists|].
  rewrite Hq in Hj. by apply elem_of_nil in Hj.
Qed.

Lemma every_group_is_finalized_witness :
  no_group_named_callback sample_updates ∧
  timers_ok (run_updates env_flaky (handlers_of sample_config) sample_updates initial) ∧
  table_of (advance env_flaky 2900
              (run_updates env_flaky (handlers_of sample_config) sample_updates initial)) = ∅ ∧
  job_queue (advance env_flaky 2900
               (run_updates env_flaky (handlers_of sample_config) sample_updates initial)) = [].
Proof.
  assert (no_group_named_callback sample_updates) as Hevents.
  { unfold no_group_named_callback, sample_updates. repeat constructor; simpl; discriminate. }
  split; [exact Hevents|].
  destruct (every_group_is_finalized env_flaky (handlers_of sample_config) sample_updates 2900
              Hevents) as [Hok Hdone].
  split; [exact Hok|]. apply Hdone. vm_compute. discriminate.
Defined.

(** *** Records *)

Lemma records_ok_run_job env job rest w : records_ok w → records_ok (run_job env job rest w).
Proof.
  intros Hok gid data. rewrite table_of_run_job.
  intros [_ Hdata]%lookup_delete_Some. by apply (Hok gid).
Qed.

Lemma records_ok_advance env t w : records_ok w → records_ok (advance env t w).
Proof.
  apply (advance_ind env records_ok); [|done].
  intros job rest w' _. apply records_ok_run_job.
Qed.

Lemma records_ok_handle_file msg w :
  is_Some (select_file msg) → records_ok w → records_ok (handle_file msg w).2.
Proof.
  intros Hfile Hok.
  destruct (handle_file_effect msg w) as (w' & -> & Ht & _). simpl.
  intros gid data. rewrite Ht.
  destruct (decide (gid = group_key msg)) as [->|Hne].
  - rewrite lookup_insert_eq. intros [= <-]. unfold stored_record.
    destruct (str_truthy (media_group_id msg)); [|by split; [|constructor]].
    destruct (table_of w !! group_key msg) as [old|] eqn:Hold; [|by split; [|constructor]].
    destruct (Hok _ _ Hold) as [Hhead Hall]. simpl. split.
    + destruct (messages old); [done|]. done.
    + apply Forall_app. split; [done|]. by constructor.
  - rewrite lookup_insert_ne by done. apply Hok.
Qed.

Lemma records_ok_dispatch env cfg u w :
  records_ok w → records_ok (dispatch env (handlers_of cfg) u w).2.
Proof.
  intros Hok. rewrite dispatch_run. unfold handlers_of, update_message. simpl.
  destruct (filter_user _ u && all_media_filters u && negb (is_command u)) eqn:Hfile.
  - destruct (kind u); try done. simpl. apply records_ok_handle_file; [|done].
    apply media_filter_select_file.
    apply andb_true_iff in Hfile as [Hfile _]. by apply andb_true_iff in Hfile as [_ ?].
  - destruct (filter_user _ u && filter_text u && negb (is_command u)); [|done].
    destruct (kind u); try done. simpl.
    destruct (handle_text_step env (effective_message u) (default "" (text u)) w)
      as (w' & -> & [Hg _ _ _ _ _ _]).
    unfold records_ok, table_of in *. simpl. by rewrite Hg.
Qed.

(** X12. With the handlers that [main] registers, every record that is ever
    in the table holds at least one message, begins with the message kept as
    its original, and holds only messages that carry a document, a photo, a
    video or an audio: the finalizer's early return on an empty record and
    its skipping of a message without file are never taken for a record
    stored by the bot. *)
Theorem stored_records_carry_files env cfg events T :
  records_ok (run_updates env (handlers_of cfg) events initial) ∧
  records_ok (advance env T (run_updates env (handlers_of cfg) events initial)) ∧
  (∀ gid data,
     table_of (run_updates env (handlers_of cfg) events initial) !! gid = Some data →
     messages data ≠ [] ∧
     length (file_messages (messages data)) = length (messages data)).
Proof.
  assert (records_ok (run_updates env (handlers_of cfg) events initial)) as Hok.
  { apply (run_updates_ind env (handlers_of cfg) records_ok (λ _, True)).
    - intros t w. apply records_ok_advance.
    - intros u w _. apply records_ok_dispatch.
    - by apply Forall_forall.
    - intros gid data Hdata. change (table_of initial) with (∅ : gmap string GroupRecord) in Hdata. by rewrite lookup_empty in Hdata. }
  split; [done|]. split; [by apply records_ok_advance|].
  intros gid data Hdata. destruct (Hok gid data Hdata) as [Hhead Hall]. split.
  - intros Hnil. by rewrite Hnil in Hhead.
  - clear Hhead. induction Hall as [|msg msgs [f Hf] _ IH]; [done|].
    rewrite file_messages_cons, Hf. simpl. by rewrite IH.
Qed.

(** ** What a finalization shows and sends *)

Lemma upload_attachment_result env reply total i fid name acc w :
  (upload_attachment env reply total i fid name acc w).1 =
  Returned (acc ++ option_list (fetched_descriptor (fetch env (attempts w)))).
Proof.
  destruct (fetch_ok (fetch env (attempts w))) eqn:Hok.
  - destruct (fetch env (attempts w)) as [| |r] eqn:Hfetch; try done.
    simpl in Hok. simpl. rewrite Hok.
    destruct r as [|status_code [[| | | | |d]|]]; try done.
    unfold upload_attachment, edit_text, bot_get_file, tg_download, upload_reply.
    py_unfold. simpl. rewrite !Hfetch. simpl. rewrite Hfetch. simpl.
    match goal with |- context [upload_file ?r ?p name ?w1] =>
      destruct (upload_file_step r p name w1) as (res & tail & w2 & -> & _ & Hobs) end.
    { simpl. apply elem_of_union_l. by apply elem_of_singleton. }
    destruct Hobs as (_ & _ & _ & _ & _ & _ & Hres).
    simpl in Hres. rewrite Hfetch in Hres.
    destruct res as [[v|]|e]; try congruence.
    destruct Hres as (status_code' & d' & Heq & -> & _). simplify_eq.
    rewrite (accepts_truthy _ _ _ eq_refl Hok). unfold descriptor_of; py_unfold. done.
  - destruct (upload_attachment_step env reply total i fid name acc w)
      as (acc' & tail & w' & -> & _ & _ & _ & _ & _ & _ & Hres).
    rewrite Hok in Hres. destruct Hres as [-> _]. simpl.
    assert (fetched_descriptor (fetch env (attempts w)) = None) as ->.
    { destruct (fetch env (attempts w)); try done. simpl in *. by rewrite Hok. }
    by rewrite app_nil_r.
Qed.

Lemma upload_loop_exact env reply total msgs :
  ∀ i acc w,
  ∃ w',
    upload_loop env reply total i msgs acc w =
      (Returned (acc ++ collected env (attempts w) (length (file_messages msgs))), w') ∧
    user_visible (trace w') = user_visible (trace w) ++ progress_edits reply total i msgs ∧
    note_writes (trace w') = note_writes (trace w) ∧
    notes w' = notes w.
Proof.
  unfold progress_edits.
  induction msgs as [|msg rest IH]; intros i acc w.
  - exists w. simpl. by rewrite !app_nil_r.
  - rewrite file_messages_cons. simpl.
    destruct (select_file msg) as [[fid name]|] eqn:Hsel; [|apply IH].
    unfold mbind at 1, Py_bind at 1.
    pose proof (upload_attachment_result env reply total i fid name acc w) as Hres.
    destruct (upload_attachment_step env reply total i fid name acc w)
      as (acc1 & tail1 & w1 & Heq & Hstep1 & Hvis & _ & _ & _ & Hnote & _).
    rewrite Heq in *. simpl in Hres. injection Hres as ->.
    destruct (IH (S i) (acc ++ option_list (fetched_descriptor (fetch env (attempts w)))) w1)
      as (w2 & -> & Hvis2 & Hnote2 & Hnotes2).
    exists w2. rewrite Hvis2, Hnote2, Hnotes2.
    rewrite (step_attempts _ _ _ _ _ _ Hstep1), (step_trace _ _ _ _ _ _ Hstep1),
      (step_notes _ _ _ _ _ _ Hstep1).
    rewrite user_visible_app, note_writes_app, Hvis, Hnote, Nat.add_1_r, app_nil_r. simpl.
    rewrite <- !app_assoc. split; [done|]. split; [done|]. split; [done|lia].
Qed.

Lemma finalize_messages_exact env orig msgs w :
  let reply := {| in_reply_to := orig; sent_at := length (trace w) |} in
  let atts := collected env (attempts w) (length (file_messages msgs)) in
  ∃ w',
    finalize_messages env orig msgs w = (Returned (), w') ∧
    user_visible (trace w') =
      user_visible (trace w) ++ [ReplyText orig (header_text msgs)]
      ++ progress_edits reply (length msgs) 0 msgs
      ++ user_visible (closing env (notes w) reply (determine_caption msgs) atts) ∧
    note_writes (trace w') = note_writes (trace w) ++ note_of msgs atts.
Proof.
  intros reply atts. unfold finalize_messages, reply_text, edit_text.
  unfold mbind at 1, Py_bind at 1. fold reply.
  unfold mbind at 1, Py_bind at 1.
  destruct (upload_loop_exact env reply (length msgs) msgs 0 []
              (emit (ReplyText orig (header_text msgs)) w))
    as (w1 & -> & Hvis & Hnote & Hnotes).
  simpl in Hvis, Hnote, Hnotes.
  change (attempts (emit (ReplyText orig (header_text msgs)) w)) with (attempts w).
  rewrite app_nil_l. fold atts.
  rewrite user_visible_app in Hvis. rewrite note_writes_app in Hnote.
  simpl in Hvis, Hnote. rewrite app_nil_r in Hnote.
  destruct atts as [|d l].
  - py_unfold. eexists. split; [reflexivity|]. simpl.
    rewrite user_visible_app, note_writes_app, Hvis, Hnote. simpl.
    by rewrite <- !app_assoc, app_nil_r.
  - unfold mbind at 1, Py_bind at 1. unfold modify at 1.
    unfold mbind at 1, Py_bind at 1.
    destruct (create_note_step env (determine_caption msgs) (d :: l)
                (emit (EditText reply "所有文件上传成功，正在创建最终笔记...") w1))
      as (w2 & -> & Hstep).
    cbn [notes emit] in *. rewrite Hnotes in *.
    destruct (note_ok (note_reply env (notes w))) eqn:Hok; py_unfold.
    all: eexists; (split; [reflexivity|]); simpl.
    all: rewrite (step_trace _ _ _ _ _ _ Hstep); simpl.
    all: rewrite !user_visible_app, !note_writes_app, Hvis, Hnote; simpl.
    all: by rewrite Hok, <- !app_assoc.
Qed.

Lemma file_positions_all msgs :
  Forall (λ msg, is_Some (select_file msg)) msgs →
  ∀ i, file_positions i msgs = seq i (length msgs).
Proof.
  induction 1 as [|msg msgs [f Hf] _ IH]; intros i; [done|].
  simpl. by rewrite Hf, IH.
Qed.

Lemma collected_elem env d n :
  ∀ k, d ∈ collected env k n →
    ∃ j status_code obj,
      (k ≤ j < k + n)%nat ∧
      fetch env j = Fetched (UploadResponse status_code (Some (JObj obj))) ∧
      accepts (UploadResponse status_code (Some (JObj obj))) = true ∧
      d = descriptor_from obj.
Proof.
  induction n as [|n IH]; intros k Hd; simpl in Hd; [by apply elem_of_nil in Hd|].
  apply elem_of_app in Hd as [Hd|Hd].
  - exists k. destruct (fetch env k) as [| |r] eqn:Hfetch; simpl in Hd;
      try by apply elem_of_nil in Hd.
    destruct (accepts r) eqn:Hacc; [|by apply elem_of_nil in Hd].
    destruct r as [|status_code [[| | | | |obj]|]]; try by apply elem_of_nil in Hd.
    apply list_elem_of_singleton in Hd as ->.
    exists status_code, obj. split; [lia|done].
  - destruct (IH (S k) Hd) as (j & status_code & obj & Hj & Hrest).
    exists j, status_code, obj. split; [lia|done].
Qed.

Lemma collected_length env n : ∀ k, length (collected env k n) = successes env k n.
Proof.
  induction n as [|n IH]; intros k; [done|].
  simpl. rewrite length_app, IH. f_equal.
  destruct (fetch env k) as [| |r]; try done. simpl.
  destruct (accepts r) eqn:Hacc; [|done].
  by destruct r as [|status_code [[| | | | |obj]|]].
Qed.

(** X13. What the user sees of a finalization, text by text: the reply to
    the original message announcing the number of stored messages, then one
    progress edit for each message that carries a file, numbered by the
    position of the message in the record out of the number of stored
    messages, then the closing edits, which depend on whether an attachment
    was collected and on the answer to the note request. When every stored
    message carries a file the progress edits count 1 to N. *)
Theorem finalization_texts env context w table data :
  media_groups w = Some table →
  table !! ctx_media_group_id context = Some data →
  messages data ≠ [] →
  let msgs := messages data in
  let reply := {| in_reply_to := ctx_original_message context; sent_at := length (trace w) |} in
  user_visible (trace (process_media_group env context w).2) =
    user_visible (trace w)
    ++ [ReplyText (ctx_original_message context) (header_text msgs)]
    ++ progress_edits reply (length msgs) 0 msgs
    ++ (EditText reply <$>
          match collected env (attempts w) (length (file_messages msgs)) with
          | [] => ["保存失败：所有文件都上传失败。"]
          | _ :: _ =>
              ["所有文件上传成功，正在创建最终笔记...";
               if note_ok (note_reply env (notes w)) then "已保存"
               else "保存失败：笔记创建失败。"]
          end) ∧
  (Forall (λ msg, is_Some (select_file msg)) msgs →
   progress_edits reply (length msgs) 0 msgs =
   (λ j, EditText reply (progress_text j (length msgs))) <$> seq 0 (length msgs)).
Proof.
  intros Htable Hdata Hne msgs reply. subst msgs. split.
  - rewrite (process_media_group_present _ _ _ _ _ Htable Hdata Hne).
    destruct (finalize_messages_exact env (ctx_original_message context) (messages data)
                (set_media_groups (Some (delete (ctx_media_group_id context) table)) w))
      as (w' & -> & Hvis & _).
    simpl in *. rewrite Hvis. do 3 f_equal.
    destruct (collected _ _ _); [done|]. simpl. by destruct (note_ok _).
  - intros Hall. unfold progress_edits. by rewrite file_positions_all.
Qed.

Lemma finalization_texts_witness :
  user_visible (trace (process_media_group env_flaky puppy_context puppy_world).2) =
    user_visible (trace puppy_world)
    ++ [ReplyText (ctx_original_message puppy_context) (header_text puppy_messages)]
    ++ progress_edits
         {| in_reply_to := ctx_original_message puppy_context;
            sent_at := length (trace puppy_world) |} 3 0 puppy_messages
    ++ (EditText {| in_reply_to := ctx_original_message puppy_context;
                    sent_at := length (trace puppy_world) |} <$>
          match collected env_flaky (attempts puppy_world)
                  (length (file_messages puppy_messages)) with
          | [] => ["保存失败：所有文件都上传失败。"]
          | _ :: _ =>
              ["所有文件上传成功，正在创建最终笔记...";
               if note_ok (note_reply env_flaky (notes puppy_world)) then "已保存"
               else "保存失败：笔记创建失败。"]
          end) ∧
  (Forall (λ msg, is_Some (select_file msg)) puppy_messages →
   progress_edits
     {| in_reply_to := ctx_original_message puppy_context;
        sent_at := length (trace puppy_world) |} 3 0 puppy_messages =
   (λ j, EditText {| in_reply_to := ctx_original_message puppy_context;
                     sent_at := length (trace puppy_world) |} (progress_text j 3))
     <$> seq 0 3).
Proof.
  apply (finalization_texts env_flaky puppy_context puppy_world {["G1" := puppy_record]}
           puppy_record).
  - reflexivity.
  - reflexivity.
  - discriminate.
Defined.

(** X14. The note request of a finalization, exactly: none when no attempt
    of the group was accepted; otherwise one, whose content is the caption
    determined from the record and whose attachments are the descriptors of
    the accepted uploads, in the order of the attempts. Each of them is
    built from the object the backend returned for that attempt, and there
    are as many as accepted attempts. *)
Theorem note_attachments env context w table data :
  media_groups w = Some table →
  table !! ctx_media_group_id context = Some data →
  messages data ≠ [] →
  let msgs := messages data in
  let atts := collected env (attempts w) (length (file_messages msgs)) in
  note_writes (trace (process_media_group env context w).2) =
    note_writes (trace w) ++ note_of msgs atts ∧
  length atts = successes env (attempts w) (length (file_messages msgs)) ∧
  (∀ d, d ∈ atts →
     ∃ j status_code obj,
       (attempts w ≤ j < attempts w + length (file_messages msgs))%nat ∧
       fetch env j = Fetched (UploadResponse status_code (Some (JObj obj))) ∧
       accepts (UploadResponse status_code (Some (JObj obj))) = true ∧
       d = descriptor_from obj).
Proof.
  intros Htable Hdata Hne msgs atts. subst msgs atts. split; [|split].
  - rewrite (process_media_group_present _ _ _ _ _ Htable Hdata Hne).
    destruct (finalize_messages_exact env (ctx_original_message context) (messages data)
                (set_media_groups (Some (delete (ctx_media_group_id context) table)) w))
      as (w' & -> & _ & Hnote).
    exact Hnote.
  - apply collected_length.
  - intros d. apply collected_elem.
Qed.

Lemma note_attachments_witness :
  note_writes (trace (process_media_group env_partial puppy_context puppy_world).2) =
    note_writes (trace puppy_world)
    ++ note_of puppy_messages
         (collected env_partial (attempts puppy_world) (length (file_messages puppy_messages))) ∧
  length (collected env_partial (attempts puppy_world) (length (file_messages puppy_messages)))
  = successes env_partial (attempts puppy_world) (length (file_messages puppy_messages)) ∧
  (∀ d, d ∈ collected env_partial (attempts puppy_world)
              (length (file_messages puppy_messages)) →
     ∃ j status_code obj,
       (attempts puppy_world ≤ j
        < attempts puppy_world + length (file_messages puppy_messages))%nat ∧
       fetch env_partial j = Fetched (UploadResponse status_code (Some (JObj obj))) ∧
       accepts (UploadResponse status_code (Some (JObj obj))) = true ∧
       d = descriptor_from obj).
Proof.
  apply (note_attachments env_partial puppy_context puppy_world {["G1" := puppy_record]}
           puppy_record).
  - reflexivity.
  - reflexivity.
  - discriminate.
Defined.

(** ** A message that comes after its group was finalized *)

(** X15. A message of a group that arrives after the group's record was
    finalized does not join it: it is stored in a new record of its own, of
    which it is the original message, and a job is scheduled that will
    finalize this record one quiet window later. *)
Theorem late_message_starts_again env context msg w :
  media_group_id msg = Some (ctx_media_group_id context) →
  str_truthy (media_group_id msg) = true →
  let gid := ctx_media_group_id context in
  let w1 := (process_media_group env context w).2 in
  let w2 := (handle_file msg w1).2 in
  table_of w1 !! gid = None ∧
  table_of w2 !! gid = Some (new_record msg) ∧
  group_job gid msg (clock w1) ∈ job_queue w2 ∧
  job_due (group_job gid msg (clock w1)) = clock w + MEDIA_GROUP_COLLECTION_DELAY.
Proof.
  intros Hgid Htruthy gid w1 w2.
  assert (table_of w1 !! gid = None) as Hnone.
  { subst w1. rewrite table_of_process_media_group. apply lookup_delete_eq. }
  assert (group_key msg = gid) as Hkey.
  { unfold group_key. by rewrite Htruthy, Hgid. }
  assert (clock w1 = clock w) as Hclock.
  { subst w1. destruct (process_media_group_step env context w)
      as (tail & gone & a & n & w' & -> & Hstep).
    simpl. by rewrite (step_clock _ _ _ _ _ _ Hstep). }
  split; [done|]. subst w2.
  destruct (handle_file_effect msg w1) as (w' & -> & Ht & Hq & _). simpl.
  rewrite Ht, Hq, Hkey. unfold scheduled_job, stored_record.
  rewrite Htruthy, Hkey, Hnone. split; [apply lookup_insert_eq|]. split.
  - rewrite enqueue_Permutation. left.
  - simpl. by rewrite Hclock.
Qed.

Lemma late_message_starts_again_witness :
  table_of (process_media_group env_up puppy_context puppy_world).2 !! "G1" = None ∧
  table_of (handle_file (photo_message 4 (Some "G1") None "p4")
              (process_media_group env_up puppy_context puppy_world).2).2 !! "G1"
  = Some (new_record (photo_message 4 (Some "G1") None "p4")) ∧
  group_job "G1" (photo_message 4 (Some "G1") None "p4")
    (clock (process_media_group env_up puppy_context puppy_world).2)
  ∈ job_queue (handle_file (photo_message 4 (Some "G1") None "p4")
                 (process_media_group env_up puppy_context puppy_world).2).2 ∧
  job_due (group_job "G1" (photo_message 4 (Some "G1") None "p4")
             (clock (process_media_group env_up puppy_context puppy_world).2))
  = clock puppy_world + MEDIA_GROUP_COLLECTION_DELAY.
Proof.
  apply (late_message_starts_again env_up puppy_context
           (photo_message 4 (Some "G1") None "p4") puppy_world).
  - reflexivity.
  - reflexivity.
Defined.

(** ** The addresses of the backend *)

Lemma rstrip_replicate c n : rstrip c (replicate_char n c) = "".
Proof.
  induction n as [|n IH]; [done|]. simpl. by rewrite IH, Ascii.eqb_refl.
Qed.

Lemma rstrip_app_replicate c n s : rstrip c (s +:+ replicate_char n c) = rstrip c s.
Proof.
  induction s as [|a s IH]; simpl; [apply rstrip_replicate|]. by rewrite IH.
Qed.

Lemma append_nil_l (s : string) : "" +:+ s = s.
Proof. reflexivity. Qed.

Lemma append_cons a (s t : string) : String a s +:+ t = String a (s +:+ t).
Proof. reflexivity. Qed.

Lemma rstrip_decompose c s : ∃ n, s = rstrip c s +:+ replicate_char n c.
Proof.
  induction s as [|a s [n IH]]; [by exists 0%nat|]. simpl.
  destruct (rstrip c s) as [|b r].
  - rewrite append_nil_l in IH. destruct (Ascii.eqb_spec a c) as [->|Hne].
    + exists (S n). rewrite append_nil_l. simpl. by f_equal.
    + exists n. rewrite append_cons, append_nil_l. by f_equal.
  - exists n. rewrite append_cons. by f_equal.
Qed.

Lemma append_singleton_nonempty s c : "" ≠ s +:+ String c "".
Proof. by destruct s. Qed.

Lemma rstrip_no_trailing c s : ∀ s', rstrip c s ≠ s' +:+ String c "".
Proof.
  induction s as [|a s IH]; intros s'; simpl; [apply append_singleton_nonempty|].
  destruct (rstrip c s) as [|b r].
  - destruct (Ascii.eqb_spec a c) as [->|Hne]; [apply append_singleton_nonempty|].
    destruct s' as [|x s'']; rewrite ?append_nil_l, ?append_cons; [congruence|].
    intros [= _ Hrest]. by apply append_singleton_nonempty in Hrest.
  - destruct s' as [|x s'']; rewrite ?append_nil_l, ?append_cons; [done|].
    intros [= _ Hrest]. by apply (IH s'').
Qed.

(** X16. The addresses of the two requests do not depend on how many
    slashes end the configured base address: the base is cut back to what
    precedes its trailing slashes, which never itself ends with a slash,
    before the path is appended. *)
Theorem endpoints_ignore_trailing_slashes api_url n :
  upload_endpoint (api_url +:+ replicate_char n "/") = upload_endpoint api_url ∧
  note_endpoint (api_url +:+ replicate_char n "/") = note_endpoint api_url ∧
  (∃ k, api_url = rstrip "/" api_url +:+ replicate_char k "/") ∧
  (∀ s, rstrip "/" api_url ≠ s +:+ "/").
Proof.
  unfold upload_endpoint, note_endpoint. rewrite rstrip_app_replicate.
  split; [done|]. split; [done|]. split; [apply rstrip_decompose|].
  apply rstrip_no_trailing.
Qed.
